(** * A prefix tree (Trie) over JavaScript strings: model and verification

    Shallow embedding of [src/ExampleCode.ts]: the [TrieNode] interface and the
    [Trie] class with [insert], [search], [startsWith], [traverse], [delete],
    [autocomplete] and [countWords].

    Modelling decisions.
    - A JavaScript string is a sequence of UTF-16 code units.  [for (const c of
      s)] iterates by code point (a well-formed surrogate pair is one
      character of two code units), while [s[i]] and [s.length] work on code
      units.  The source uses the former in [insert] and [traverse] and the
      latter in [delete]; both are modelled as written.
    - [String.prototype.toLowerCase] is modelled on a fragment of the Unicode
      tables, which are not part of the repository: the simple mapping of
      the Basic Latin, Latin-1, Greek and Cyrillic capitals, the
      context-sensitive final sigma, and the length-changing U+0130.  The
      general proofs use these facts about it only: it is idempotent, every
      character of a lower-cased string is in lower case, a string of
      lower-case characters is left alone, it neither makes nor breaks a
      surrogate pair, and only the empty string becomes empty.
    - [Map<string, TrieNode>] is an insertion-ordered association list with
      string keys; keys are compared by value.
    - The tree is an ownership hierarchy without sharing, so in-place mutation
      of a node is modelled by rebuilding the path from the root: where the
      source mutates a child that the map holds, the model writes the new
      child back under its key, which keeps its position. *)

From Stdlib Require Import String Ascii.
From Stdlib Require Import List Bool Arith NArith Lia.
From Equations Require Import Equations.
Import ListNotations.

Set Implicit Arguments.

(** ** JavaScript strings *)

Module JS.

Definition code_unit := N.
Definition jsstring := list code_unit.

(** A Rocq string literal read as a JavaScript string (one code unit per
    character; used to write examples). *)
Definition lit (s : String.string) : jsstring :=
  List.map N_of_ascii (list_ascii_of_string s).

Definition is_high (u : code_unit) : bool := (55296 <=? u)%N && (u <=? 56319)%N.
Definition is_low (u : code_unit) : bool := (56320 <=? u)%N && (u <=? 57343)%N.

(** The iteration protocol of strings: [for (const char of s)] yields one
    string per code point; a high surrogate directly followed by a low
    surrogate is yielded as one two-unit string. *)
Fixpoint code_points (s : jsstring) : list jsstring :=
  match s with
  | [] => []
  | u :: t =>
      match t with
      | v :: t' =>
          if is_high u && is_low v then [u; v] :: code_points t'
          else [u] :: code_points t
      | [] => [[u]]
      end
  end.

(** [s[i]] for every [i < s.length], in order: one single-unit string per
    code unit. *)
Definition units (s : jsstring) : list jsstring := List.map (fun u => [u]) s.

Definition in_range (lo hi u : code_unit) : bool := (lo <=? u)%N && (u <=? hi)%N.

(** The simple lower-case mapping of one code unit: Basic Latin, Latin-1,
    the Greek and the Cyrillic capitals (a fragment of the mapping that
    [String.prototype.toLowerCase] applies). *)
Definition lower_unit (u : code_unit) : code_unit :=
  (if in_range 65 90 u then u + 32
   else if in_range 192 214 u then u + 32
   else if in_range 216 222 u then u + 32
   else if in_range 913 929 u then u + 32
   else if in_range 931 939 u then u + 32
   else if in_range 1024 1039 u then u + 80
   else if in_range 1040 1071 u then u + 32
   else u)%N.

(** Cased letters and case-ignorable characters of the same blocks; they
    decide whether a capital sigma is final. *)
Definition is_cased (u : code_unit) : bool :=
  (in_range 65 90 u || in_range 97 122 u
   || (u =? 170) || (u =? 181) || (u =? 186)
   || in_range 192 214 u || in_range 216 246 u || in_range 248 255 u
   || in_range 304 305 u
   || in_range 913 929 u || in_range 931 939 u || in_range 940 974 u
   || in_range 1024 1119 u)%N.

Definition is_case_ignorable (u : code_unit) : bool :=
  ((u =? 39) || (u =? 46) || (u =? 58) || (u =? 94) || (u =? 96)
   || (u =? 168) || (u =? 173) || (u =? 175) || (u =? 180)
   || (u =? 183) || (u =? 184) || in_range 768 879 u)%N.

Fixpoint followed_by_cased (t : jsstring) : bool :=
  match t with
  | [] => false
  | v :: t' => if is_case_ignorable v then followed_by_cased t' else is_cased v
  end.

(** What one code unit becomes.  U+03A3 becomes the final sigma U+03C2 when
    a cased letter precedes it and none follows (case-ignorable characters
    skipped), and U+03C3 otherwise; U+0130 becomes the two units U+0069
    U+0307; every other unit follows the simple mapping. *)
Definition lower_chunk (after_cased : bool) (u : code_unit) (t : jsstring) : jsstring :=
  if (u =? 931)%N then
    [if after_cased && negb (followed_by_cased t) then 962%N else 963%N]
  else if (u =? 304)%N then [105%N; 775%N]
  else [lower_unit u].

Fixpoint lower_from (after_cased : bool) (s : jsstring) : jsstring :=
  match s with
  | [] => []
  | u :: t =>
      lower_chunk after_cased u t ++
      lower_from (if is_case_ignorable u then after_cased else is_cased u) t
  end.

(** [String.prototype.toLowerCase]. *)
Definition toLowerCase (s : jsstring) : jsstring := lower_from false s.

Fixpoint eqb (a b : jsstring) : bool :=
  match a, b with
  | [], [] => true
  | x :: a', y :: b' => N.eqb x y && eqb a' b'
  | _, _ => false
  end.

End JS.

Import JS.

(** ** The [Map] of children *)

Section MapModel.

Variable V : Type.

Definition Map := list (jsstring * V).

Fixpoint Map_get (k : jsstring) (m : Map) : option V :=
  match m with
  | [] => None
  | (k', v) :: m' => if JS.eqb k k' then Some v else Map_get k m'
  end.

(** [Map.prototype.set]: an existing key keeps its position, a new key is
    appended. *)
Fixpoint Map_set (k : jsstring) (v : V) (m : Map) : Map :=
  match m with
  | [] => [(k, v)]
  | (k', v') :: m' =>
      if JS.eqb k k' then (k', v) :: m' else (k', v') :: Map_set k v m'
  end.

Definition Map_delete (k : jsstring) (m : Map) : Map :=
  List.filter (fun kv => negb (JS.eqb k (fst kv))) m.

Definition Map_size (m : Map) : nat := List.length m.

Definition Map_keys (m : Map) : list jsstring := List.map fst m.

Definition Map_values (m : Map) : list V := List.map snd m.

End MapModel.

(** ** Nodes and the trie *)

Unset Elimination Schemes.
Inductive TrieNode : Type :=
  mkNode { children : Map TrieNode; isEndOfWord : bool }.
Set Elimination Schemes.

Record Trie : Type := mkTrie { root : TrieNode }.

Definition createNode : TrieNode := mkNode [] false.

(** [new Trie()] *)
Definition newTrie : Trie := mkTrie createNode.

(** The loop of [insert] over the characters of the normalized word.  A child
    found by [get] is updated in place (the map holds it by reference); a
    missing one is created and appended by [set]. *)
Fixpoint insert_loop (chars : list jsstring) (currentNode : TrieNode) : TrieNode :=
  match chars with
  | [] => mkNode (children currentNode) true
  | char :: rest =>
      let nextNode :=
        match Map_get char (children currentNode) with
        | Some n => n
        | None => createNode
        end in
      mkNode (Map_set char (insert_loop rest nextNode) (children currentNode))
             (isEndOfWord currentNode)
  end.

Definition insert (word : jsstring) (t : Trie) : Trie :=
  mkTrie (insert_loop (code_points (toLowerCase word)) (root t)).

(** The loop of [traverse]; [None] is the source's [null]. *)
Fixpoint traverse_loop (chars : list jsstring) (currentNode : TrieNode)
  : option TrieNode :=
  match chars with
  | [] => Some currentNode
  | char :: rest =>
      match Map_get char (children currentNode) with
      | None => None
      | Some nextNode => traverse_loop rest nextNode
      end
  end.

Definition traverse (str : jsstring) (t : Trie) : option TrieNode :=
  traverse_loop (code_points (toLowerCase str)) (root t).

Definition search (word : jsstring) (t : Trie) : bool :=
  match traverse word t with
  | Some node => isEndOfWord node
  | None => false
  end.

Definition startsWith (prefix : jsstring) (t : Trie) : bool :=
  match traverse prefix t with
  | Some _ => true
  | None => false
  end.

(** [canDelete(node, depth)]: the first argument is the list of the
    single-unit strings [normalizedWord[depth]], [normalizedWord[depth+1]], ...
    that remain; it is empty exactly when [depth === normalizedWord.length].
    The result is the returned flag and the node after the mutations. *)
Fixpoint canDelete (rest : list jsstring) (node : TrieNode) : bool * TrieNode :=
  match rest with
  | [] =>
      if negb (isEndOfWord node) then (false, node)
      else (Map_size (children node) =? 0, mkNode (children node) false)
  | char :: rest' =>
      match Map_get char (children node) with
      | None => (false, node)
      | Some nextNode =>
          let (shouldDeleteChild, nextNode') := canDelete rest' nextNode in
          if shouldDeleteChild then
            let children' := Map_delete char (children node) in
            (((Map_size children' =? 0) && negb (isEndOfWord node))%bool,
             mkNode children' (isEndOfWord node))
          else
            (false,
             mkNode (Map_set char nextNode' (children node)) (isEndOfWord node))
      end
  end.

(** [delete] returns what [canDelete] reports for the root; the root itself
    stays the root of the trie. *)
Definition delete (word : jsstring) (t : Trie) : bool * Trie :=
  let (r, root') := canDelete (units (toLowerCase word)) (root t) in
  (r, mkTrie root').

(** The inner [dfs] of [autocomplete]; pushing to the shared [results] array
    in visiting order is list concatenation. *)
Fixpoint dfs (node : TrieNode) (currentWord : jsstring) : list jsstring :=
  (if isEndOfWord node then [currentWord] else []) ++
  List.flat_map (fun kv => dfs (snd kv) (currentWord ++ fst kv)) (children node).

Definition autocomplete (prefix : jsstring) (t : Trie) : list jsstring :=
  match traverse prefix t with
  | None => []
  | Some startNode => dfs startNode (toLowerCase prefix)
  end.

Fixpoint node_count (node : TrieNode) : nat :=
  S (list_sum (List.map (fun kv => node_count (snd kv)) (children node))).

Definition queue_weight (queue : list TrieNode) : nat :=
  list_sum (List.map node_count queue).

(** The [while (queue.length > 0)] loop of [countWords]: [shift] takes the
    head of the queue, the children are pushed at its end. *)
Equations? countWords_loop (queue : list TrieNode) (count : nat) : nat
  by wf (queue_weight queue) lt :=
  countWords_loop [] count := count;
  countWords_loop (currentNode :: queue) count :=
    countWords_loop (queue ++ Map_values (children currentNode))
                    (if isEndOfWord currentNode then S count else count).
Proof.
  unfold queue_weight, Map_values.
  rewrite map_app, list_sum_app, map_map. simpl.
  destruct currentNode as [ch e]. simpl. lia.
Qed.

Definition countWords (t : Trie) : nat := countWords_loop [root t] 0.

(** ** Sequences of operations *)

Inductive Op : Type :=
| Insert (word : jsstring)
| Delete (word : jsstring)
| Search (word : jsstring)
| StartsWith (prefix : jsstring)
| Autocomplete (prefix : jsstring)
| CountWords.

(** The effect of one call on the trie; the four queries do not mutate. *)
Definition exec (op : Op) (t : Trie) : Trie :=
  match op with
  | Insert w => insert w t
  | Delete w => snd (delete w t)
  | Search _ | StartsWith _ | Autocomplete _ | CountWords => t
  end.

Definition run (ops : list Op) (t : Trie) : Trie :=
  List.fold_left (fun t op => exec op t) ops t.

(** The ten words of the demonstration at the end of the source file. *)
Definition wordsToInsert : list jsstring :=
  List.map lit
    ["apple"; "application"; "banana"; "band"; "bandwidth";
     "java"; "javascript"; "type"; "typescript"; "react"]%string.

Definition dictionary : Trie := run (List.map Insert wordsToInsert) newTrie.

(** ** Notions used in the statements *)

(** A string in which no surrogate pair occurs: its characters are its code
    units. *)
Definition pair_free (s : jsstring) : Prop := code_points s = units s.

(** Character-level prefix: the characters of [p] are the first characters
    of [w]. *)
Definition char_prefix (p w : jsstring) : Prop :=
  exists rest, code_points w = code_points p ++ rest.

(** Whether following [chars] from [node] ends on a node marked as the end of
    a word (the body of [search] below the normalization). *)
Definition marked_at (chars : list jsstring) (node : TrieNode) : bool :=
  match traverse_loop chars node with
  | Some n => isEndOfWord n
  | None => false
  end.

(** A node that carries nothing: no children and no end-of-word mark. *)
Definition is_garbage (node : TrieNode) : bool :=
  (Map_size (children node) =? 0) && negb (isEndOfWord node).

(** No node strictly below [node] is garbage. *)
Fixpoint garbage_free_below (node : TrieNode) : bool :=
  List.forallb (fun kv => negb (is_garbage (snd kv)) && garbage_free_below (snd kv))
               (children node).

(** A map entry whose node is not garbage and has no garbage below. *)
Definition live (kv : jsstring * TrieNode) : bool :=
  negb (is_garbage (snd kv)) && garbage_free_below (snd kv).

Definition garbage_free (t : Trie) : bool := garbage_free_below (root t).

(** The number of marked nodes in the subtree of [node]. *)
Fixpoint marks (node : TrieNode) : nat :=
  (if isEndOfWord node then 1 else 0) +
  list_sum (List.map (fun kv => marks (snd kv)) (children node)).

(** A path of edge labels is canonical when it is the character sequence of
    the string it spells, and every label is in lower case. *)
Definition canon (path : list jsstring) : Prop :=
  code_points (List.concat path) = path /\
  Forall (fun k => toLowerCase k = k) path.

(** Well-formedness of the subtree of [node], reached from the root by [path]:
    the keys of every map are unique and every path is canonical. *)
Inductive node_ok : list jsstring -> TrieNode -> Prop :=
| node_ok_intro path ch e :
    NoDup (Map_keys ch) ->
    (forall k c, In (k, c) ch -> canon (path ++ [k])) ->
    (forall k c, In (k, c) ch -> node_ok (path ++ [k]) c) ->
    node_ok path (mkNode ch e).

Definition trie_ok (t : Trie) : Prop := node_ok [] (root t).

(** ** The reference: a set of normalized words *)

Definition ref_mem (w : jsstring) (s : list jsstring) : bool :=
  List.existsb (JS.eqb w) s.

Definition ref_exec (op : Op) (s : list jsstring) : list jsstring :=
  match op with
  | Insert w =>
      if ref_mem (toLowerCase w) s then s else s ++ [toLowerCase w]
  | Delete w =>
      List.filter (fun v => negb (JS.eqb (toLowerCase w) v)) s
  | Search _ | StartsWith _ | Autocomplete _ | CountWords => s
  end.

Definition ref_run (ops : list Op) (s : list jsstring) : list jsstring :=
  List.fold_left (fun s op => ref_exec op s) ops s.

(** The trie and the reference set agree: same members, same size. *)
Definition agrees (t : Trie) (s : list jsstring) : Prop :=
  trie_ok t /\ NoDup s /\
  (forall v, search v t = true <-> In (toLowerCase v) s) /\
  countWords t = length s.

(** The words passed to [delete] in a sequence of operations. *)
Definition deleted_words (ops : list Op) : list jsstring :=
  List.flat_map (fun op => match op with Delete w => [w] | _ => [] end) ops.

(** U+1F600, one character of two code units. *)
Definition grinning_face : jsstring := [55357; 56832]%N.

(** Two Greek words in capitals: U+0391 U+03A3 U+0391 and its first two
    characters U+0391 U+03A3. *)
Definition alpha_sigma_alpha : jsstring := [913; 931; 913]%N.
Definition alpha_sigma : jsstring := [913; 931]%N.

(** A code unit that lower-casing leaves alone, wherever it stands. *)
Definition fixed_unit (u : code_unit) : bool :=
  negb (u =? 931)%N && negb (u =? 304)%N && (lower_unit u =? u)%N.

(** No high surrogate is directly followed by a low surrogate. *)
Fixpoint no_pair (s : jsstring) : bool :=
  match s with
  | [] => true
  | u :: t =>
      match t with
      | v :: _ => negb (is_high u && is_low v) && no_pair t
      | [] => true
      end
  end.

(** The history of a sequence of calls started in [t]: how many [insert]
    calls stored a word that was not stored, and how many [delete] calls
    removed a word that was stored. *)
Fixpoint tally (ops : list Op) (t : Trie) : nat * nat :=
  match ops with
  | [] => (0, 0)
  | op :: rest =>
      let (inserted, removed) := tally rest (exec op t) in
      match op with
      | Insert w => ((if search w t then 0 else 1) + inserted, removed)
      | Delete w =>
          (inserted,
           (if search w t && negb (search w (snd (delete w t))) then 1 else 0)
           + removed)
      | Search _ | StartsWith _ | Autocomplete _ | CountWords =>
          (inserted, removed)
      end
  end.


(** ** Facts about strings *)

Section StringFacts.

Lemma eqb_eq (a b : jsstring) : JS.eqb a b = true <-> a = b.
Proof.
  revert b. induction a as [|x a IH]; intros [|y b]; simpl;
    try (split; [discriminate | congruence]); try tauto.
  rewrite andb_true_iff, N.eqb_eq, IH. split.
  - intros [-> ->]. reflexivity.
  - intros H. inversion H. auto.
Qed.

Lemma eqb_refl (a : jsstring) : JS.eqb a a = true.
Proof. apply eqb_eq. reflexivity. Qed.

Lemma eqb_neq (a b : jsstring) : JS.eqb a b = false <-> a <> b.
Proof.
  rewrite <- eqb_eq. destruct (JS.eqb a b); split; congruence.
Qed.

Lemma eqb_sym (a b : jsstring) : JS.eqb a b = JS.eqb b a.
Proof.
  destruct (JS.eqb a b) eqn:E.
  - apply eqb_eq in E. subst. symmetry. apply eqb_refl.
  - apply eqb_neq in E. symmetry. apply eqb_neq. congruence.
Qed.

Ltac split_leb :=
  repeat match goal with
    | |- context [N.leb ?a ?b] =>
        destruct (N.leb_spec a b); cbn [andb orb negb]; try (exfalso; lia)
    | |- context [N.eqb ?a ?b] =>
        destruct (N.eqb_spec a b); cbn [andb orb negb]; try (exfalso; lia)
    end.

Lemma lower_unit_fixed (u : code_unit) :
  u <> 304%N -> fixed_unit (lower_unit u) = true.
Proof.
  intros H. unfold fixed_unit, lower_unit, in_range.
  split_leb; try reflexivity; try lia.
Qed.

Lemma lower_unit_cases (u : code_unit) :
  lower_unit u = u \/ (u <= 1071 /\ lower_unit u <= 1119)%N.
Proof.
  unfold lower_unit, in_range. split_leb; auto; right; lia.
Qed.

Lemma lower_unit_surrogate (u : code_unit) :
  is_high (lower_unit u) = is_high u /\ is_low (lower_unit u) = is_low u.
Proof.
  destruct (lower_unit_cases u) as [->|[H1 H2]]; [auto|].
  unfold is_high, is_low. split; split_leb; try reflexivity; exfalso; lia.
Qed.

Lemma lower_chunk_fixed (b : bool) (u : code_unit) (t : jsstring) :
  fixed_unit u = true -> lower_chunk b u t = [u].
Proof.
  unfold fixed_unit, lower_chunk. rewrite !andb_true_iff, !negb_true_iff, N.eqb_eq.
  intros [[-> ->] ->]. reflexivity.
Qed.

Lemma lower_chunk_fixed_inv (b : bool) (u : code_unit) (t : jsstring) :
  lower_chunk b u t = [u] -> fixed_unit u = true.
Proof.
  unfold fixed_unit, lower_chunk.
  destruct (N.eqb_spec u 931) as [->|_].
  - destruct (b && negb (followed_by_cased t)); discriminate.
  - destruct (N.eqb_spec u 304) as [->|_]; [discriminate|].
    intros [= H]. rewrite H, N.eqb_refl. reflexivity.
Qed.

Lemma lower_chunk_out (b : bool) (u : code_unit) (t : jsstring) :
  Forall (fun x => fixed_unit x = true) (lower_chunk b u t).
Proof.
  unfold lower_chunk. destruct (N.eqb_spec u 931) as [->|_].
  - destruct (b && negb (followed_by_cased t)); repeat constructor.
  - destruct (N.eqb_spec u 304) as [->|H]; repeat constructor.
    apply lower_unit_fixed. exact H.
Qed.

(** A chunk is one unit of the same surrogate class, or the two units that
    replace U+0130. *)
Lemma lower_chunk_shape (b : bool) (u : code_unit) (t : jsstring) :
  (exists x, lower_chunk b u t = [x] /\ is_high x = is_high u /\ is_low x = is_low u)
  \/ (lower_chunk b u t = [105%N; 775%N] /\ is_high u = false /\ is_low u = false).
Proof.
  unfold lower_chunk. destruct (N.eqb_spec u 931) as [->|_].
  - left. destruct (b && negb (followed_by_cased t)); eexists; repeat split.
  - destruct (N.eqb_spec u 304) as [->|_].
    + right. repeat split.
    + left. exists (lower_unit u). split; [reflexivity|]. apply lower_unit_surrogate.
Qed.

Lemma lower_from_fixed (s : jsstring) :
  forall b, Forall (fun x => fixed_unit x = true) s -> lower_from b s = s.
Proof.
  induction s as [|u t IH]; intros b H; simpl; [reflexivity|].
  inversion H as [|? ? Hu Ht]; subst.
  rewrite lower_chunk_fixed by exact Hu. rewrite IH by assumption. reflexivity.
Qed.

Lemma lower_from_fixed_inv (s : jsstring) :
  forall b, lower_from b s = s -> Forall (fun x => fixed_unit x = true) s.
Proof.
  induction s as [|u t IH]; intros b H; [constructor|]. simpl in H.
  destruct (lower_chunk_shape b u t) as [(x & Hx & _)|(Hx & _)]; rewrite Hx in H.
  - injection H as -> H. constructor.
    + eapply lower_chunk_fixed_inv. exact Hx.
    + eapply IH. exact H.
  - injection H as <- _.
    exfalso. revert Hx. unfold lower_chunk. simpl. discriminate.
Qed.

Lemma lower_from_out (s : jsstring) :
  forall b, Forall (fun x => fixed_unit x = true) (lower_from b s).
Proof.
  induction s as [|u t IH]; intros b; simpl; [constructor|].
  apply Forall_app. split; [apply lower_chunk_out | apply IH].
Qed.

Lemma toLowerCase_idem (s : jsstring) : toLowerCase (toLowerCase s) = toLowerCase s.
Proof. apply lower_from_fixed, lower_from_out. Qed.

Lemma toLowerCase_fixed_iff (s : jsstring) :
  toLowerCase s = s <-> Forall (fun x => fixed_unit x = true) s.
Proof. split; [apply lower_from_fixed_inv | apply lower_from_fixed]. Qed.

Lemma toLowerCase_nil (s : jsstring) : toLowerCase s = [] -> s = [].
Proof.
  destruct s as [|u t]; [reflexivity|]. unfold toLowerCase. simpl.
  destruct (lower_chunk_shape false u t) as [(x & Hx & _)|(Hx & _)];
    rewrite Hx; discriminate.
Qed.

Lemma toLowerCase_concat (l : list jsstring) :
  Forall (fun k => toLowerCase k = k) l -> toLowerCase (List.concat l) = List.concat l.
Proof.
  intros H. apply toLowerCase_fixed_iff.
  induction H as [|k l Hk Hl IH]; simpl; [constructor|].
  apply Forall_app. split; [apply toLowerCase_fixed_iff; exact Hk | exact IH].
Qed.

Lemma no_pair_lower_from (s : jsstring) :
  forall b, no_pair (lower_from b s) = no_pair s /\
            is_low (hd 0%N (lower_from b s)) = is_low (hd 0%N s) /\
            (lower_from b s = [] -> s = []).
Proof.
  induction s as [|u t IH]; intros b; [repeat split|].
  simpl lower_from.
  destruct (IH (if is_case_ignorable u then b else is_cased u)) as (IH1 & IH2 & IH3).
  remember (lower_from (if is_case_ignorable u then b else is_cased u) t) as L eqn:EL.
  destruct (lower_chunk_shape b u t) as [(x & Hx & Hh & Hl)|(Hx & Hh & Hl)];
    rewrite Hx.
  - split; [|split; [simpl; exact Hl | discriminate]].
    simpl app. destruct L as [|y L'].
    + rewrite (IH3 eq_refl). reflexivity.
    + destruct t as [|v t']; [discriminate EL|].
      simpl in IH2. change (no_pair (x :: y :: L'))
        with (negb (is_high x && is_low y) && no_pair (y :: L')).
      change (no_pair (u :: v :: t'))
        with (negb (is_high u && is_low v) && no_pair (v :: t')).
      rewrite Hh, IH2, IH1. reflexivity.
  - split; [|split; [simpl; symmetry; exact Hl | discriminate]].
    simpl app.
    destruct L as [|y L'].
    + rewrite (IH3 eq_refl). reflexivity.
    + destruct t as [|v t']; [discriminate EL|].
      change (no_pair (105%N :: 775%N :: y :: L'))
        with (negb (is_high 105%N && is_low 775%N) &&
              (negb (is_high 775%N && is_low y) && no_pair (y :: L'))).
      change (no_pair (u :: v :: t'))
        with (negb (is_high u && is_low v) && no_pair (v :: t')).
      rewrite Hh, IH1. reflexivity.
Qed.

(** Induction following the two-unit look-ahead of [code_points]. *)
Lemma code_points_ind (P : jsstring -> list jsstring -> Prop) :
  P [] [] ->
  (forall u, P [u] [[u]]) ->
  (forall u v t, is_high u && is_low v = true ->
                 P t (code_points t) -> P (u :: v :: t) ([u; v] :: code_points t)) ->
  (forall u v t, is_high u && is_low v = false ->
                 P (v :: t) (code_points (v :: t)) ->
                 P (u :: v :: t) ([u] :: code_points (v :: t))) ->
  forall s, P s (code_points s).
Proof.
  intros Hnil Hone Hpair Hsingle s.
  assert (H : forall n s, length s <= n -> P s (code_points s)).
  { induction n as [|n IH]; intros [|u [|v t]] Hlen; simpl in Hlen;
      try exact Hnil; try apply Hone; try lia.
    change (code_points (u :: v :: t))
      with (if is_high u && is_low v then [u; v] :: code_points t
            else [u] :: code_points (v :: t)).
    destruct (is_high u && is_low v) eqn:E.
    - apply Hpair; [exact E | apply IH; lia].
    - apply Hsingle; [exact E | apply IH; simpl; lia]. }
  apply (H (length s)). lia.
Qed.

Lemma concat_code_points (s : jsstring) : List.concat (code_points s) = s.
Proof.
  apply (code_points_ind (fun s cs => List.concat cs = s)); simpl; intros;
    try reflexivity; congruence.
Qed.

Lemma code_points_inj (a b : jsstring) : code_points a = code_points b -> a = b.
Proof.
  intros H. rewrite <- (concat_code_points a), <- (concat_code_points b).
  congruence.
Qed.

Lemma code_points_cons2 (u v : code_unit) (t : jsstring) :
  code_points (u :: v :: t) =
  if is_high u && is_low v then [u; v] :: code_points t
  else [u] :: code_points (v :: t).
Proof. reflexivity. Qed.

Lemma pair_free_no_pair (s : jsstring) : pair_free s <-> no_pair s = true.
Proof.
  unfold pair_free.
  apply (code_points_ind (fun s cs => cs = units s <-> no_pair s = true)).
  - split; reflexivity.
  - intros u. split; reflexivity.
  - intros u v t E _.
    change (no_pair (u :: v :: t))
      with (negb (is_high u && is_low v) && no_pair (v :: t)).
    rewrite E. simpl. split; discriminate.
  - intros u v t E IH.
    change (no_pair (u :: v :: t))
      with (negb (is_high u && is_low v) && no_pair (v :: t)).
    rewrite E. simpl negb. simpl andb. rewrite <- IH.
    change (units (u :: v :: t)) with ([u] :: units (v :: t)).
    split; [intros [= H]; exact H | intros ->; reflexivity].
Qed.

(** Lower-casing neither makes nor breaks a surrogate pair. *)
Lemma pair_free_toLowerCase (s : jsstring) :
  pair_free s -> pair_free (toLowerCase s).
Proof.
  rewrite !pair_free_no_pair. unfold toLowerCase.
  destruct (no_pair_lower_from s false) as [-> _]. auto.
Qed.

Lemma pair_free_of_toLowerCase (w : jsstring) :
  pair_free (toLowerCase w) -> pair_free w.
Proof.
  rewrite !pair_free_no_pair. unfold toLowerCase.
  destruct (no_pair_lower_from w false) as [-> _]. auto.
Qed.

(** Every character of a lower-cased string is itself in lower case. *)
Lemma code_points_fixed (s k : jsstring) :
  In k (code_points (toLowerCase s)) -> toLowerCase k = k.
Proof.
  intros Hk. apply toLowerCase_fixed_iff. apply Forall_forall. intros u Hu.
  pose proof (lower_from_out s false) as Hout. rewrite Forall_forall in Hout.
  apply Hout. fold (toLowerCase s).
  rewrite <- (concat_code_points (toLowerCase s)).
  apply in_concat. exists k. split; assumption.
Qed.

Lemma char_prefix_refl (w : jsstring) : char_prefix w w.
Proof. exists []. symmetry. apply app_nil_r. Qed.

End StringFacts.

(** ** Facts about the [Map] model *)

Section MapFacts.

Variable V : Type.
Implicit Types (k : jsstring) (v : V) (m : Map V).

Lemma Map_get_set_same k v m : Map_get k (Map_set k v m) = Some v.
Proof.
  induction m as [|[k' v'] m IH]; simpl.
  - rewrite eqb_refl. reflexivity.
  - destruct (JS.eqb k k') eqn:E; simpl; rewrite E; auto.
Qed.

Lemma Map_get_set_other k k' v m :
  k <> k' -> Map_get k' (Map_set k v m) = Map_get k' m.
Proof.
  intros Hne. induction m as [|[k2 v2] m IH]; simpl.
  - assert (JS.eqb k' k = false) as -> by (apply eqb_neq; congruence).
    reflexivity.
  - destruct (JS.eqb k k2) eqn:E; simpl.
    + apply eqb_eq in E. subst k2.
      assert (JS.eqb k' k = false) as -> by (apply eqb_neq; congruence).
      reflexivity.
    + rewrite IH. reflexivity.
Qed.

Lemma Map_set_set k v v' m : Map_set k v' (Map_set k v m) = Map_set k v' m.
Proof.
  induction m as [|[k2 v2] m IH]; simpl.
  - rewrite eqb_refl. reflexivity.
  - destruct (JS.eqb k k2) eqn:E; simpl; rewrite E; congruence.
Qed.

Lemma Map_set_get_id k v m : Map_get k m = Some v -> Map_set k v m = m.
Proof.
  induction m as [|[k2 v2] m IH]; simpl; [discriminate|].
  destruct (JS.eqb k k2) eqn:E.
  - intros [= ->]. reflexivity.
  - intros H. rewrite IH by assumption. reflexivity.
Qed.

Lemma Map_get_delete_same k m : Map_get k (Map_delete k m) = None.
Proof.
  induction m as [|[k2 v2] m IH]; simpl; [reflexivity|].
  destruct (JS.eqb k k2) eqn:E; simpl; [assumption|].
  rewrite E. assumption.
Qed.

Lemma Map_get_delete_other k k' m :
  k <> k' -> Map_get k' (Map_delete k m) = Map_get k' m.
Proof.
  intros Hne. induction m as [|[k2 v2] m IH]; simpl; [reflexivity|].
  destruct (JS.eqb k k2) eqn:E; simpl.
  - apply eqb_eq in E. subst k2.
    assert (JS.eqb k' k = false) as -> by (apply eqb_neq; congruence).
    assumption.
  - rewrite IH. reflexivity.
Qed.

Lemma Map_get_In k v m : Map_get k m = Some v -> In (k, v) m.
Proof.
  induction m as [|[k2 v2] m IH]; simpl; [discriminate|].
  destruct (JS.eqb k k2) eqn:E.
  - apply eqb_eq in E. intros [= ->]. left. congruence.
  - auto.
Qed.

Lemma Map_get_None_keys k m : Map_get k m = None <-> ~ In k (Map_keys m).
Proof.
  induction m as [|[k2 v2] m IH]; simpl; [tauto|].
  destruct (JS.eqb k k2) eqn:E.
  - apply eqb_eq in E. subst. split; [discriminate | tauto].
  - apply eqb_neq in E. rewrite IH. split; [intros H [?|?]; auto | tauto].
Qed.

Lemma In_Map_get k v m :
  NoDup (Map_keys m) -> In (k, v) m -> Map_get k m = Some v.
Proof.
  induction m as [|[k2 v2] m IH]; simpl; [tauto|].
  intros Hnd [H|H].
  - inversion H; subst. rewrite eqb_refl. reflexivity.
  - inversion Hnd as [|? ? Hnot Hnd']; subst.
    destruct (JS.eqb k k2) eqn:E.
    + apply eqb_eq in E. subst. exfalso. apply Hnot.
      apply (in_map fst) in H. exact H.
    + auto.
Qed.

Lemma Map_keys_set k v m :
  Map_keys (Map_set k v m) =
  match Map_get k m with Some _ => Map_keys m | None => Map_keys m ++ [k] end.
Proof.
  induction m as [|[k2 v2] m IH]; simpl; [reflexivity|].
  destruct (JS.eqb k k2) eqn:E; simpl; [reflexivity|].
  rewrite IH. destruct (Map_get k m); reflexivity.
Qed.

Lemma Map_keys_delete k m :
  Map_keys (Map_delete k m) = List.filter (fun k' => negb (JS.eqb k k')) (Map_keys m).
Proof.
  induction m as [|[k2 v2] m IH]; simpl; [reflexivity|].
  destruct (JS.eqb k k2); simpl; congruence.
Qed.

Lemma Map_set_NoDup k v m : NoDup (Map_keys m) -> NoDup (Map_keys (Map_set k v m)).
Proof.
  intros H. rewrite Map_keys_set. destruct (Map_get k m) eqn:E; [assumption|].
  apply Map_get_None_keys in E.
  apply NoDup_app; [assumption | repeat constructor; simpl; tauto |].
  intros x Hx [<-|[]]. contradiction.
Qed.

Lemma Map_delete_NoDup k m : NoDup (Map_keys m) -> NoDup (Map_keys (Map_delete k m)).
Proof. intros H. rewrite Map_keys_delete. apply NoDup_filter. assumption. Qed.

(** What [Map_set] leaves in the map: the new binding and old bindings. *)
Lemma In_Map_set k v k' v' m :
  In (k', v') (Map_set k v m) -> (k' = k /\ v' = v) \/ In (k', v') m.
Proof.
  induction m as [|[k2 v2] m IH]; simpl.
  - intros [H|[]]. inversion H. auto.
  - destruct (JS.eqb k k2) eqn:E; simpl.
    + apply eqb_eq in E. subst k2. intros [H|H]; [inversion H|]; auto.
    + intros [H|H]; [auto|]. destruct (IH H); auto.
Qed.

Lemma In_Map_delete k k' v' m :
  In (k', v') (Map_delete k m) <-> In (k', v') m /\ k' <> k.
Proof.
  unfold Map_delete. rewrite filter_In. simpl.
  rewrite negb_true_iff, eqb_neq. intuition congruence.
Qed.

End MapFacts.

(** ** Induction on nodes *)

Lemma TrieNode_ind (P : TrieNode -> Prop) :
  (forall ch e, Forall (fun kv => P (snd kv)) ch -> P (mkNode ch e)) ->
  forall n, P n.
Proof.
  intros H. fix IH 1. intros [ch e]. apply H.
  induction ch as [|[k c] ch IHch]; constructor.
  - apply IH.
  - exact IHch.
Qed.

(** ** Traversal and insertion *)

Section InsertFacts.

Lemma traverse_loop_app (a b : list jsstring) (n : TrieNode) :
  traverse_loop (a ++ b) n =
  match traverse_loop a n with
  | Some x => traverse_loop b x
  | None => None
  end.
Proof.
  revert n. induction a as [|c a IH]; intros n; simpl; [reflexivity|].
  destruct (Map_get c (children n)); [apply IH | reflexivity].
Qed.

Lemma marked_at_createNode (chars : list jsstring) :
  marked_at chars createNode = false.
Proof. destruct chars; reflexivity. Qed.

Lemma marked_at_cons (c : jsstring) (chars : list jsstring) (n : TrieNode) :
  marked_at (c :: chars) n =
  match Map_get c (children n) with
  | Some x => marked_at chars x
  | None => false
  end.
Proof.
  unfold marked_at. simpl. destruct (Map_get c (children n)); reflexivity.
Qed.

(** After [insert_loop], exactly the inserted path is newly marked. *)
Lemma marked_at_insert_loop (vs ws : list jsstring) (n : TrieNode) :
  marked_at vs (insert_loop ws n) = true <-> marked_at vs n = true \/ vs = ws.
Proof.
  revert ws n. induction vs as [|c vs IH]; intros [|d ws] n.
  - simpl. unfold marked_at. simpl. tauto.
  - unfold marked_at. simpl. split; [tauto | intros [H|H]; [exact H | discriminate]].
  - rewrite !marked_at_cons. simpl.
    split; [tauto | intros [H|H]; [exact H | discriminate]].
  - rewrite !marked_at_cons. simpl.
    destruct (JS.eqb d c) eqn:E.
    + apply eqb_eq in E. subst d. rewrite Map_get_set_same, IH.
      destruct (Map_get c (children n)) as [x|].
      * split; (intros [H|H]; [left; exact H | right; congruence]).
      * rewrite marked_at_createNode.
        split; (intros [H|H]; [discriminate | right; congruence]).
    + apply eqb_neq in E. rewrite Map_get_set_other by assumption.
      split; [tauto | intros [H|H]; [exact H | congruence]].
Qed.

Lemma insert_loop_idem (chars : list jsstring) (n : TrieNode) :
  insert_loop chars (insert_loop chars n) = insert_loop chars n.
Proof.
  revert n. induction chars as [|c chars IH]; intros n; simpl; [reflexivity|].
  rewrite Map_get_set_same, IH, Map_set_set. reflexivity.
Qed.

Lemma search_marked_at (w : jsstring) (t : Trie) :
  search w t = marked_at (code_points (toLowerCase w)) (root t).
Proof. reflexivity. Qed.

Lemma search_insert (v w : jsstring) (t : Trie) :
  search v (insert w t) = true <->
  search v t = true \/ toLowerCase v = toLowerCase w.
Proof.
  rewrite !search_marked_at. unfold insert. simpl root.
  rewrite marked_at_insert_loop. split; intros [H|H]; auto.
  - right. apply code_points_inj. exact H.
  - right. congruence.
Qed.

Lemma traverse_toLowerCase (s : jsstring) (t : Trie) :
  traverse (toLowerCase s) t = traverse s t.
Proof. unfold traverse. rewrite toLowerCase_idem. reflexivity. Qed.

End InsertFacts.

(** ** Counting and enumeration *)

Section CountFacts.

Lemma marks_unfold (n : TrieNode) :
  marks n =
  (if isEndOfWord n then 1 else 0) + list_sum (List.map marks (Map_values (children n))).
Proof.
  destruct n as [ch e]. simpl. unfold Map_values. rewrite map_map. reflexivity.
Qed.

(** The breadth-first loop adds to [count] the marked nodes of the subtrees
    waiting in the queue. *)
Lemma countWords_loop_marks (queue : list TrieNode) (count : nat) :
  countWords_loop queue count = count + list_sum (List.map marks queue).
Proof.
  funelim (countWords_loop queue count).
  - simpl. lia.
  - match goal with IH : countWords_loop _ _ = _ + _ |- _ => rewrite IH end.
    rewrite map_app, list_sum_app. simpl List.map. simpl list_sum.
    rewrite (marks_unfold currentNode).
    destruct (isEndOfWord currentNode); lia.
Qed.

Lemma countWords_marks (t : Trie) : countWords t = marks (root t).
Proof.
  unfold countWords. rewrite countWords_loop_marks. simpl. lia.
Qed.

Lemma length_flat_map (A B : Type) (f : A -> list B) (l : list A) :
  length (List.flat_map f l) = list_sum (List.map (fun x => length (f x)) l).
Proof.
  induction l as [|x l IH]; simpl; [reflexivity|].
  rewrite length_app, IH. reflexivity.
Qed.

Lemma length_dfs (n : TrieNode) (acc : jsstring) : length (dfs n acc) = marks n.
Proof.
  revert acc. induction n as [ch e IH] using TrieNode_ind. intros acc.
  simpl. rewrite length_app, length_flat_map. f_equal.
  - destruct e; reflexivity.
  - f_equal. apply map_ext_Forall.
    rewrite Forall_forall in *. intros kv Hin. apply IH. exact Hin.
Qed.

Lemma marks_Map_set (k : jsstring) (c : TrieNode) (m : Map TrieNode) :
  list_sum (List.map (fun kv => marks (snd kv)) (Map_set k c m)) +
  match Map_get k m with Some old => marks old | None => 0 end =
  list_sum (List.map (fun kv => marks (snd kv)) m) + marks c.
Proof.
  induction m as [|[k2 v2] m IH]; simpl; [lia|].
  destruct (JS.eqb k k2); simpl; lia.
Qed.

Lemma marks_insert_loop (chars : list jsstring) (n : TrieNode) :
  marks (insert_loop chars n) =
  marks n + (if marked_at chars n then 0 else 1).
Proof.
  revert n. induction chars as [|c chars IH]; intros [ch e].
  - unfold marked_at. simpl. destruct e; lia.
  - rewrite marked_at_cons. simpl.
    pose proof (marks_Map_set c
      (insert_loop chars match Map_get c ch with Some x => x | None => createNode end)
      ch) as H.
    rewrite IH in H.
    destruct (Map_get c ch) as [x|].
    + lia.
    + rewrite marked_at_createNode in H. simpl in H. lia.
Qed.

(** Every marked node below [n] contributes the word it spells. *)
Lemma In_dfs_of_traverse (ks : list jsstring) (n x : TrieNode) (acc : jsstring) :
  traverse_loop ks n = Some x -> isEndOfWord x = true ->
  In (acc ++ List.concat ks) (dfs n acc).
Proof.
  revert n acc. induction ks as [|k ks IH]; intros [ch e] acc; simpl.
  - intros [= <-]. simpl. intros ->. rewrite app_nil_r. left. reflexivity.
  - destruct (Map_get k ch) as [c|] eqn:G; [|discriminate].
    intros Ht Hx. apply in_or_app. right. apply in_flat_map.
    exists (k, c). split; [apply Map_get_In; exact G|].
    simpl. rewrite app_assoc. apply IH; assumption.
Qed.

(** Conversely, with unique keys, every enumerated word is spelled by a path
    to a marked node. *)
Lemma traverse_of_In_dfs (n : TrieNode) :
  forall path acc r, node_ok path n -> In r (dfs n acc) ->
  exists ks x, traverse_loop ks n = Some x /\ isEndOfWord x = true /\
               r = acc ++ List.concat ks.
Proof.
  induction n as [ch e IH] using TrieNode_ind. intros path acc r Hok Hin.
  simpl in Hin. apply in_app_or in Hin. destruct Hin as [Hin|Hin].
  - destruct e; [|contradiction]. destruct Hin as [<-|[]].
    exists [], (mkNode ch true). simpl. rewrite app_nil_r. auto.
  - apply in_flat_map in Hin. destruct Hin as [[k c] [Hkc Hr]]. simpl in Hr.
    inversion Hok as [? ? ? Hnd Hcanon Hsub]; subst.
    rewrite Forall_forall in IH.
    destruct (IH (k, c) Hkc (path ++ [k]) (acc ++ k) r (Hsub k c Hkc) Hr)
      as (ks & x & Ht & Hx & ->).
    exists (k :: ks), x. simpl.
    rewrite (In_Map_get _ _ _ Hnd Hkc), <- app_assoc. auto.
Qed.

End CountFacts.

(** ** Deletion *)

Section DeleteFacts.

Ltac case_canDelete rest n b n' E :=
  destruct (canDelete rest n) as [b n'] eqn:E.

(** A node reported as prunable has become an empty, unmarked node. *)
Lemma canDelete_true_empty (rest : list jsstring) (n : TrieNode) :
  fst (canDelete rest n) = true -> snd (canDelete rest n) = createNode.
Proof.
  destruct rest as [|c rest]; simpl.
  - destruct n as [ch e]. simpl. destruct e; simpl; [|discriminate].
    destruct ch; simpl; [reflexivity | discriminate].
  - destruct (Map_get c (children n)) as [x|]; [|discriminate].
    case_canDelete rest x b x' E. destruct b; simpl; [|discriminate].
    rewrite andb_true_iff, negb_true_iff, Nat.eqb_eq. intros [Hsz He].
    unfold Map_size in Hsz. apply length_zero_iff_nil in Hsz.
    rewrite Hsz, He. reflexivity.
Qed.

(** Deleting along a path that does not end on a marked node changes
    nothing and reports [false]. *)
Lemma canDelete_absent (rest : list jsstring) (n : TrieNode) :
  marked_at rest n = false -> canDelete rest n = (false, n).
Proof.
  revert n. induction rest as [|c rest IH]; intros [ch e].
  - unfold marked_at. simpl. intros ->. reflexivity.
  - rewrite marked_at_cons. simpl.
    destruct (Map_get c ch) as [x|] eqn:G; [|reflexivity].
    intros H. rewrite (IH x H), (Map_set_get_id _ _ G). reflexivity.
Qed.

(** After [canDelete], the deleted path is unmarked and every other path
    is marked exactly when it was before. *)
Lemma marked_at_canDelete (vs rest : list jsstring) (n : TrieNode) :
  marked_at vs (snd (canDelete rest n)) = true <->
  marked_at vs n = true /\ vs <> rest.
Proof.
  revert rest n. induction vs as [|k vs IH]; intros [|c rest] [ch e].
  - unfold marked_at. simpl. destruct e; simpl; split;
      try discriminate; intros [? ?]; congruence.
  - unfold marked_at at 2. simpl.
    destruct (Map_get c ch) as [x|]; simpl.
    + case_canDelete rest x b x' E. destruct b; unfold marked_at; simpl;
        (split; [intros H; split; [exact H | discriminate] | tauto]).
    + unfold marked_at; simpl.
      split; [intros H; split; [exact H | discriminate] | tauto].
  - simpl. destruct e; simpl; rewrite !marked_at_cons; simpl;
      (split; [intros H; split; [exact H | discriminate] | tauto]).
  - simpl. destruct (Map_get c ch) as [x|] eqn:G; simpl.
    + pose proof (IH rest x) as IHx.
      pose proof (canDelete_true_empty rest x) as Hempty.
      case_canDelete rest x b x' E. simpl in IHx, Hempty.
      destruct (JS.eqb c k) eqn:Eck.
      * apply eqb_eq in Eck. subst k.
        destruct b; simpl; rewrite !marked_at_cons; simpl; rewrite G.
        -- rewrite Map_get_delete_same.
           rewrite (Hempty eq_refl), marked_at_createNode in IHx.
           split; [discriminate|]. intros [Hm Hne].
           apply IHx. split; [exact Hm | congruence].
        -- rewrite Map_get_set_same, IHx.
           split; intros [Hm Hne]; (split; [exact Hm | congruence]).
      * apply eqb_neq in Eck.
        destruct b; simpl; rewrite !marked_at_cons; simpl.
        -- rewrite Map_get_delete_other by assumption.
           split; [intros H; split; [exact H | congruence] | tauto].
        -- rewrite Map_get_set_other by assumption.
           split; [intros H; split; [exact H | congruence] | tauto].
    + split; [|tauto]. intros H. split; [exact H|].
      rewrite marked_at_cons in H. simpl in H.
      intros Heq. inversion Heq; subst. rewrite G in H. discriminate.
Qed.

Lemma delete_snd_root (w : jsstring) (t : Trie) :
  root (snd (delete w t)) = snd (canDelete (units (toLowerCase w)) (root t)).
Proof.
  unfold delete. destruct (canDelete (units (toLowerCase w)) (root t)). reflexivity.
Qed.

Lemma delete_fst (w : jsstring) (t : Trie) :
  fst (delete w t) = fst (canDelete (units (toLowerCase w)) (root t)).
Proof.
  unfold delete. destruct (canDelete (units (toLowerCase w)) (root t)). reflexivity.
Qed.

(** [search] after [delete], for every pair of words. *)
Lemma search_delete (v w : jsstring) (t : Trie) :
  search v (snd (delete w t)) = true <->
  search v t = true /\ code_points (toLowerCase v) <> units (toLowerCase w).
Proof.
  rewrite !search_marked_at, delete_snd_root. apply marked_at_canDelete.
Qed.

Lemma units_concat (s : jsstring) : List.concat (units s) = s.
Proof. induction s; simpl; congruence. Qed.

(** The code units of a word are its characters only when no surrogate
    pair occurs in it. *)
Lemma code_points_eq_units (v w : jsstring) :
  code_points v = units w -> v = w /\ pair_free w.
Proof.
  intros H. assert (v = w) as ->.
  { rewrite <- (concat_code_points v), H. apply units_concat. }
  split; [reflexivity | exact H].
Qed.

End DeleteFacts.

(** ** The garbage-free invariant *)

Section GarbageFacts.

Lemma garbage_free_below_unfold (n : TrieNode) :
  garbage_free_below n = List.forallb live (children n).
Proof. destruct n. reflexivity. Qed.

Lemma forallb_Map_set (f : jsstring * TrieNode -> bool) k c (m : Map TrieNode) :
  (forall k', f (k', c) = true) ->
  List.forallb f m = true -> List.forallb f (Map_set k c m) = true.
Proof.
  intros Hc. induction m as [|[k2 v2] m IH]; simpl.
  - intros _. rewrite Hc. reflexivity.
  - destruct (JS.eqb k k2); simpl; rewrite !andb_true_iff; intros [H1 H2]; auto.
Qed.

Lemma forallb_Map_delete (f : jsstring * TrieNode -> bool) k (m : Map TrieNode) :
  List.forallb f m = true -> List.forallb f (Map_delete k m) = true.
Proof.
  rewrite !forallb_forall. intros H x Hx. apply H.
  unfold Map_delete in Hx. apply filter_In in Hx. tauto.
Qed.

Lemma Map_set_nonempty (k : jsstring) (c : TrieNode) (m : Map TrieNode) :
  (Map_size (Map_set k c m) =? 0) = false.
Proof.
  destruct m as [|[k2 v2] m]; simpl; [reflexivity|].
  destruct (JS.eqb k k2); reflexivity.
Qed.

Lemma live_of_get (k : jsstring) (x n : TrieNode) :
  garbage_free_below n = true -> Map_get k (children n) = Some x ->
  is_garbage x = false /\ garbage_free_below x = true.
Proof.
  rewrite garbage_free_below_unfold, forallb_forall. intros H G.
  apply Map_get_In in G. specialize (H _ G). unfold live in H. simpl in H.
  apply andb_true_iff in H. rewrite negb_true_iff in H. exact H.
Qed.

(** [insert_loop] returns a node that is not garbage and has none below. *)
Lemma insert_loop_garbage (chars : list jsstring) (n : TrieNode) :
  garbage_free_below n = true ->
  is_garbage (insert_loop chars n) = false /\
  garbage_free_below (insert_loop chars n) = true.
Proof.
  revert n. induction chars as [|c chars IH]; intros n Hn.
  - simpl. split.
    + unfold is_garbage. simpl. apply andb_false_r.
    + rewrite garbage_free_below_unfold in Hn. exact Hn.
  - simpl. split.
    + unfold is_garbage. simpl. rewrite Map_set_nonempty. reflexivity.
    + apply forallb_Map_set.
      * intros k'. unfold live. simpl.
        assert (Hnext : garbage_free_below
                  match Map_get c (children n) with
                  | Some x => x | None => createNode end = true).
        { destruct (Map_get c (children n)) as [x|] eqn:G; [|reflexivity].
          apply (live_of_get _ _ Hn G). }
        destruct (IH _ Hnext) as [H1 H2]. rewrite H1, H2. reflexivity.
      * rewrite garbage_free_below_unfold in Hn. exact Hn.
Qed.

(** [canDelete] leaves no garbage below the node, and a node it does not
    report as prunable is not garbage unless it already was. *)
Lemma canDelete_garbage (rest : list jsstring) (n : TrieNode) :
  garbage_free_below n = true ->
  garbage_free_below (snd (canDelete rest n)) = true /\
  (fst (canDelete rest n) = false -> is_garbage n = false ->
   is_garbage (snd (canDelete rest n)) = false).
Proof.
  revert n. induction rest as [|c rest IH]; intros n Hn.
  - simpl. destruct (isEndOfWord n) eqn:He; simpl.
    + split.
      * rewrite garbage_free_below_unfold in Hn. exact Hn.
      * unfold is_garbage. simpl. intros ->. reflexivity.
    + split; [exact Hn | auto].
  - simpl. destruct (Map_get c (children n)) as [x|] eqn:G.
    + destruct (live_of_get _ _ Hn G) as [Hx1 Hx2].
      destruct (IH x Hx2) as [IH1 IH2].
      destruct (canDelete rest x) as [b x'] eqn:E. simpl in IH1, IH2.
      destruct b; simpl.
      * split.
        -- apply forallb_Map_delete.
           rewrite garbage_free_below_unfold in Hn. exact Hn.
        -- unfold is_garbage. simpl. auto.
      * split.
        -- apply forallb_Map_set.
           ++ intros k'. unfold live. simpl.
              rewrite IH1, (IH2 eq_refl Hx1). reflexivity.
           ++ rewrite garbage_free_below_unfold in Hn. exact Hn.
        -- intros _ _. unfold is_garbage. simpl.
           rewrite Map_set_nonempty. reflexivity.
    + simpl. split; [exact Hn | auto].
Qed.

Lemma exec_garbage_free (op : Op) (t : Trie) :
  garbage_free t = true -> garbage_free (exec op t) = true.
Proof.
  unfold garbage_free. destruct op; simpl; auto.
  - intros H. apply insert_loop_garbage. exact H.
  - intros H. rewrite delete_snd_root. apply canDelete_garbage. exact H.
Qed.

Lemma garbage_free_run (ops : list Op) : garbage_free (run ops newTrie) = true.
Proof.
  assert (H : forall t, garbage_free t = true -> garbage_free (run ops t) = true).
  { induction ops as [|op ops IH]; intros t Ht; simpl; [exact Ht|].
    apply IH, exec_garbage_free, Ht. }
  apply H. reflexivity.
Qed.

End GarbageFacts.

(** ** Well-formedness: unique keys and canonical paths *)

Section WellFormed.

Lemma code_points_head (v : code_unit) (t : jsstring) k l :
  code_points (v :: t) = k :: l -> exists k', k = v :: k'.
Proof.
  destruct t as [|v' t]; simpl.
  - intros [= <- _]. eauto.
  - destruct (is_high v && is_low v'); intros [= <- _]; eauto.
Qed.

(** The first characters of a string are the characters of the string they
    spell. *)
Lemma code_points_prefix (s : jsstring) :
  forall a b, code_points s = a ++ b -> code_points (List.concat a) = a.
Proof.
  apply (code_points_ind
           (fun s cs => forall a b, cs = a ++ b -> code_points (List.concat a) = a)).
  - intros [|k a] b H; [reflexivity | discriminate].
  - intros u [|k a] b H; [reflexivity|].
    injection H as <- H. destruct a; [reflexivity | discriminate].
  - intros u v t E IH [|k a] b H; [reflexivity|].
    injection H as <- H. simpl List.concat.
    change ([u; v] ++ List.concat a) with (u :: v :: List.concat a).
    rewrite code_points_cons2, E, (IH a b H). reflexivity.
  - intros u v t E IH [|k a] b H; [reflexivity|].
    injection H as <- H. specialize (IH a b H).
    simpl List.concat. change ([u] ++ List.concat a) with (u :: List.concat a).
    destruct a as [|k a]; [reflexivity|].
    simpl in H. destruct (code_points_head _ _ H) as [k' ->].
    simpl List.concat in *.
    change ((v :: k') ++ List.concat a) with (v :: k' ++ List.concat a) in *.
    rewrite code_points_cons2, E, IH. reflexivity.
Qed.

Lemma canon_nil : canon [].
Proof. split; [reflexivity | constructor]. Qed.

Lemma canon_code_points (w : jsstring) : canon (code_points (toLowerCase w)).
Proof.
  split.
  - rewrite concat_code_points. reflexivity.
  - apply Forall_forall. intros k Hk. apply (code_points_fixed w k Hk).
Qed.

Lemma canon_app_l (a b : list jsstring) : canon (a ++ b) -> canon a.
Proof.
  intros [H1 H2]. split.
  - exact (code_points_prefix _ _ _ H1).
  - apply Forall_app in H2. tauto.
Qed.

(** A canonical path is the path that [traverse] follows for the word it
    spells. *)
Lemma canon_traverse_path (path : list jsstring) :
  canon path -> code_points (toLowerCase (List.concat path)) = path.
Proof. intros [H1 H2]. rewrite toLowerCase_concat; assumption. Qed.

Lemma node_ok_createNode (path : list jsstring) : node_ok path createNode.
Proof. constructor; [constructor | intros k c [] | intros k c []]. Qed.

Lemma node_ok_get (path : list jsstring) (n x : TrieNode) (k : jsstring) :
  node_ok path n -> Map_get k (children n) = Some x ->
  canon (path ++ [k]) /\ node_ok (path ++ [k]) x.
Proof.
  intros Hok G. inversion Hok as [? ch e Hnd Hc Hs]; subst. simpl in G.
  apply Map_get_In in G. split; [exact (Hc _ _ G) | exact (Hs _ _ G)].
Qed.

Lemma node_ok_keys (path : list jsstring) (n : TrieNode) :
  node_ok path n -> NoDup (Map_keys (children n)).
Proof. intros Hok. inversion Hok; subst. assumption. Qed.

Lemma insert_loop_ok (chars : list jsstring) :
  forall path n, node_ok path n -> canon (path ++ chars) ->
                 node_ok path (insert_loop chars n).
Proof.
  induction chars as [|c chars IH]; intros path n Hok Hcanon.
  - inversion Hok; subst. simpl. constructor; assumption.
  - simpl.
    assert (Hc : canon (path ++ [c])).
    { apply canon_app_l with (b := chars). rewrite <- app_assoc. exact Hcanon. }
    assert (Hnext : node_ok (path ++ [c])
              match Map_get c (children n) with
              | Some x => x | None => createNode end).
    { destruct (Map_get c (children n)) as [x|] eqn:G.
      - apply (node_ok_get _ Hok G).
      - apply node_ok_createNode. }
    assert (Hnew := IH (path ++ [c]) _ Hnext).
    rewrite <- app_assoc in Hnew. specialize (Hnew Hcanon).
    inversion Hok as [? ch e Hnd Hcs Hs]; subst. simpl in *.
    constructor.
    + apply Map_set_NoDup. exact Hnd.
    + intros k x Hin. apply In_Map_set in Hin.
      destruct Hin as [[-> ->]|Hin]; [exact Hc | exact (Hcs _ _ Hin)].
    + intros k x Hin. apply In_Map_set in Hin.
      destruct Hin as [[-> ->]|Hin]; [exact Hnew | exact (Hs _ _ Hin)].
Qed.

Lemma canDelete_ok (rest : list jsstring) :
  forall path n, node_ok path n -> node_ok path (snd (canDelete rest n)).
Proof.
  induction rest as [|c rest IH]; intros path n Hok.
  - simpl. destruct (isEndOfWord n); simpl; [|exact Hok].
    inversion Hok; subst. constructor; assumption.
  - simpl. destruct (Map_get c (children n)) as [x|] eqn:G; [|exact Hok].
    destruct (node_ok_get _ Hok G) as [Hc Hx].
    specialize (IH _ _ Hx).
    destruct (canDelete rest x) as [b x'] eqn:E. simpl in IH.
    inversion Hok as [? ch e Hnd Hcs Hs]; subst. simpl in *.
    destruct b; simpl; constructor.
    + apply Map_delete_NoDup. exact Hnd.
    + intros k y Hin. apply In_Map_delete in Hin. apply (Hcs _ _ (proj1 Hin)).
    + intros k y Hin. apply In_Map_delete in Hin. apply (Hs _ _ (proj1 Hin)).
    + apply Map_set_NoDup. exact Hnd.
    + intros k y Hin. apply In_Map_set in Hin.
      destruct Hin as [[-> ->]|Hin]; [exact Hc | exact (Hcs _ _ Hin)].
    + intros k y Hin. apply In_Map_set in Hin.
      destruct Hin as [[-> ->]|Hin]; [exact IH | exact (Hs _ _ Hin)].
Qed.

Lemma trie_ok_new : trie_ok newTrie.
Proof. apply node_ok_createNode. Qed.

Lemma trie_ok_exec (op : Op) (t : Trie) : trie_ok t -> trie_ok (exec op t).
Proof.
  unfold trie_ok. destruct op; simpl; auto.
  - intros H. apply insert_loop_ok; [exact H | apply canon_code_points].
  - intros H. rewrite delete_snd_root. apply canDelete_ok. exact H.
Qed.

Lemma trie_ok_run (ops : list Op) (t : Trie) : trie_ok t -> trie_ok (run ops t).
Proof.
  revert t. induction ops as [|op ops IH]; intros t H; simpl; [exact H|].
  apply IH, trie_ok_exec, H.
Qed.

(** Every path that can be followed in a well-formed trie is canonical. *)
Lemma node_ok_traverse (ks : list jsstring) :
  forall path n x, node_ok path n -> canon path ->
                   traverse_loop ks n = Some x ->
                   canon (path ++ ks) /\ node_ok (path ++ ks) x.
Proof.
  induction ks as [|k ks IH]; intros path n x Hok Hcanon Ht; simpl in Ht.
  - injection Ht as <-. rewrite app_nil_r. auto.
  - destruct (Map_get k (children n)) as [y|] eqn:G; [|discriminate].
    destruct (node_ok_get _ Hok G) as [Hc Hy].
    replace (path ++ k :: ks) with ((path ++ [k]) ++ ks)
      by (rewrite <- app_assoc; reflexivity).
    apply (IH _ _ _ Hy Hc Ht).
Qed.

Lemma marks_Map_delete (k : jsstring) (old : TrieNode) (m : Map TrieNode) :
  NoDup (Map_keys m) -> Map_get k m = Some old ->
  list_sum (List.map (fun kv => marks (snd kv)) (Map_delete k m)) + marks old =
  list_sum (List.map (fun kv => marks (snd kv)) m).
Proof.
  induction m as [|[k2 v2] m IH]; simpl; [discriminate|].
  intros Hnd. inversion Hnd as [|? ? Hnot Hnd']; subst.
  destruct (JS.eqb k k2) eqn:E; simpl.
  - apply eqb_eq in E. subst k2. intros [= ->].
    assert (Hid : Map_delete k m = m).
    { unfold Map_delete. apply forallb_filter_id. apply forallb_forall.
      intros [k3 v3] Hin. simpl. apply negb_true_iff, eqb_neq.
      intros ->. apply Hnot. apply (in_map fst) in Hin. exact Hin. }
    rewrite Hid. lia.
  - intros G. specialize (IH Hnd' G). lia.
Qed.

(** [canDelete] removes one mark exactly when its path ends on a marked
    node. *)
Lemma marks_canDelete (rest : list jsstring) :
  forall path n, node_ok path n ->
  marks (snd (canDelete rest n)) + (if marked_at rest n then 1 else 0) = marks n.
Proof.
  induction rest as [|c rest IH]; intros path [ch e] Hok.
  - unfold marked_at. simpl. destruct e; simpl; lia.
  - rewrite marked_at_cons. simpl.
    destruct (Map_get c ch) as [x|] eqn:G; [|simpl; lia].
    destruct (node_ok_get _ Hok G) as [_ Hx].
    specialize (IH _ _ Hx).
    pose proof (canDelete_true_empty rest x) as Hempty.
    destruct (canDelete rest x) as [b x'] eqn:E. simpl in IH, Hempty.
    destruct b; simpl.
    + rewrite (Hempty eq_refl) in IH. simpl in IH.
      pose proof (@marks_Map_delete c x ch (node_ok_keys Hok) G). simpl in *. lia.
    + pose proof (marks_Map_set c x' ch) as H. rewrite G in H. lia.
Qed.

End WellFormed.

(** ** Enumeration in a well-formed trie *)

Section AutocompleteFacts.

Variable t : Trie.
Hypothesis Hok : trie_ok t.

(** Every word returned by [autocomplete] is a stored, lower-case word whose
    first characters are those of the normalized prefix. *)
Lemma autocomplete_sound (p r : jsstring) :
  In r (autocomplete p t) ->
  search r t = true /\ toLowerCase r = r /\
  char_prefix (toLowerCase p) r /\ exists s, r = toLowerCase p ++ s.
Proof.
  unfold autocomplete, traverse.
  destruct (traverse_loop (code_points (toLowerCase p)) (root t))
    as [start|] eqn:Hp; [|intros []].
  intros Hin.
  destruct (node_ok_traverse _ Hok canon_nil Hp) as [Hcp Hstart].
  destruct (@traverse_of_In_dfs start _ _ _ Hstart Hin) as (ks & x & Hks & Hx & ->).
  assert (Hfull : traverse_loop (code_points (toLowerCase p) ++ ks) (root t) = Some x).
  { rewrite traverse_loop_app, Hp. exact Hks. }
  destruct (node_ok_traverse _ Hok canon_nil Hfull) as [Hcanon _].
  simpl in Hcanon.
  assert (Hspell : List.concat (code_points (toLowerCase p) ++ ks)
                   = toLowerCase p ++ List.concat ks).
  { rewrite concat_app, concat_code_points. reflexivity. }
  pose proof (canon_traverse_path Hcanon) as Hpath. rewrite Hspell in Hpath.
  destruct Hcanon as [Hc1 Hc2]. rewrite Hspell in Hc1.
  repeat split.
  - rewrite search_marked_at, Hpath. unfold marked_at. rewrite Hfull. exact Hx.
  - rewrite <- Hspell. apply toLowerCase_concat. exact Hc2.
  - exists ks. exact Hc1.
  - exists (List.concat ks). reflexivity.
Qed.

End AutocompleteFacts.

(** Every stored word whose first characters are those of the normalized
    prefix is returned, in its normalized form (in any trie). *)
Lemma autocomplete_complete (t : Trie) (p w : jsstring) :
  search w t = true -> char_prefix (toLowerCase p) (toLowerCase w) ->
  In (toLowerCase w) (autocomplete p t).
Proof.
  rewrite search_marked_at. unfold marked_at, autocomplete, traverse.
  intros Hs [rest Hrest]. rewrite Hrest, traverse_loop_app in Hs.
  destruct (traverse_loop (code_points (toLowerCase p)) (root t)) as [start|];
    [|discriminate].
  destruct (traverse_loop rest start) as [x|] eqn:Hx; [|discriminate].
  replace (toLowerCase w) with (toLowerCase p ++ List.concat rest).
  - apply (In_dfs_of_traverse _ _ _ Hx Hs).
  - rewrite <- (concat_code_points (toLowerCase w)), Hrest, concat_app,
      concat_code_points. reflexivity.
Qed.

Lemma traverse_fails_no_results (t : Trie) (p : jsstring) :
  traverse p t = None -> autocomplete p t = [].
Proof. unfold autocomplete. intros ->. reflexivity. Qed.

(** ** Deleting a word that is not stored *)

Lemma marked_at_units (t : Trie) (w : jsstring) :
  trie_ok t ->
  marked_at (units (toLowerCase w)) (root t) = true -> search w t = true.
Proof.
  intros Hok Hm. rewrite search_marked_at.
  unfold marked_at in Hm.
  destruct (traverse_loop (units (toLowerCase w)) (root t)) as [x|] eqn:Hx;
    [|discriminate].
  destruct (node_ok_traverse _ Hok canon_nil Hx) as [[Hc _] _]. simpl in Hc.
  rewrite units_concat in Hc. rewrite Hc. unfold marked_at. rewrite Hx. exact Hm.
Qed.

Lemma delete_absent_unchanged (t : Trie) (w : jsstring) :
  trie_ok t -> search w t = false -> delete w t = (false, t).
Proof.
  intros Hok Hs. unfold delete.
  rewrite canDelete_absent; [destruct t; reflexivity|].
  destruct (marked_at (units (toLowerCase w)) (root t)) eqn:Hm; [|reflexivity].
  rewrite (marked_at_units _ Hok Hm) in Hs. discriminate.
Qed.

(** [delete] reports [true] only when the whole trie has become empty. *)
Lemma delete_true_empties (t : Trie) (w : jsstring) :
  fst (delete w t) = true -> snd (delete w t) = newTrie.
Proof.
  rewrite delete_fst. intros H. apply canDelete_true_empty in H.
  unfold delete in *. destruct (canDelete (units (toLowerCase w)) (root t)).
  simpl in *. subst. reflexivity.
Qed.

(** A word without surrogate pairs is no longer found after its deletion. *)
Lemma delete_pair_free_removes (t : Trie) (w : jsstring) :
  pair_free w -> search w (snd (delete w t)) = false.
Proof.
  intros Hpf. apply not_true_is_false. rewrite search_delete.
  intros [_ Hne]. apply Hne. apply pair_free_toLowerCase. exact Hpf.
Qed.

(** [delete] never changes whether another word is found. *)
Lemma delete_keeps_others (t : Trie) (v w : jsstring) :
  toLowerCase v <> toLowerCase w ->
  search v (snd (delete w t)) = search v t.
Proof.
  intros Hne. apply eq_true_iff_eq. rewrite search_delete.
  split; [tauto|]. intros H. split; [exact H|].
  intros Heq. apply code_points_eq_units in Heq. tauto.
Qed.

(** A word in which a surrogate pair occurs is never removed by [delete]. *)
Lemma delete_with_pair_is_noop (t : Trie) (w : jsstring) :
  trie_ok t -> ~ pair_free w -> delete w t = (false, t).
Proof.
  intros Hok Hnpf. unfold delete.
  rewrite canDelete_absent; [destruct t; reflexivity|].
  destruct (marked_at (units (toLowerCase w)) (root t)) eqn:Hm; [|reflexivity].
  exfalso. apply Hnpf. apply pair_free_of_toLowerCase.
  unfold marked_at in Hm.
  destruct (traverse_loop (units (toLowerCase w)) (root t)) as [x|] eqn:Hx;
    [|discriminate].
  destruct (node_ok_traverse _ Hok canon_nil Hx) as [[Hc _] _]. simpl in Hc.
  rewrite units_concat in Hc. exact Hc.
Qed.

(** ** The trie against the reference set *)

Section Reference.

Lemma ref_mem_In (w : jsstring) (s : list jsstring) :
  ref_mem w s = true <-> In w s.
Proof.
  unfold ref_mem. rewrite existsb_exists. split.
  - intros (x & Hx & E). apply eqb_eq in E. subst. exact Hx.
  - intros H. exists w. split; [exact H | apply eqb_refl].
Qed.

Lemma length_filter_out (w : jsstring) (s : list jsstring) :
  NoDup s ->
  length (List.filter (fun v => negb (JS.eqb w v)) s)
  + (if ref_mem w s then 1 else 0) = length s.
Proof.
  induction 1 as [|x s Hx Hs IH]; simpl; [reflexivity|].
  destruct (JS.eqb w x) eqn:E; simpl.
  - apply eqb_eq in E. subst x.
    assert (ref_mem w s = false) as Hm.
    { apply not_true_is_false. rewrite ref_mem_In. exact Hx. }
    rewrite Hm in IH. lia.
  - lia.
Qed.

Lemma agrees_new : agrees newTrie [].
Proof.
  split; [apply trie_ok_new|]. split; [constructor|]. split; [|reflexivity].
  intros v. rewrite search_marked_at. simpl root.
  rewrite marked_at_createNode. simpl. split; [discriminate | tauto].
Qed.

Lemma agrees_insert (w : jsstring) (t : Trie) (s : list jsstring) :
  agrees t s -> agrees (insert w t) (ref_exec (Insert w) s).
Proof.
  intros (Hok & Hnd & Hmem & Hcount). simpl.
  assert (Hw : ref_mem (toLowerCase w) s = search w t).
  { apply eq_true_iff_eq. rewrite ref_mem_In. symmetry. apply Hmem. }
  split; [apply (trie_ok_exec (Insert w)); exact Hok|].
  rewrite Hw. destruct (search w t) eqn:Hs.
  - split; [exact Hnd|]. split.
    + intros v. rewrite search_insert, Hmem. split; [|tauto].
      intros [H|H]; [exact H|]. rewrite H. apply Hmem. exact Hs.
    + rewrite countWords_marks in *. unfold insert. simpl root.
      rewrite marks_insert_loop. rewrite search_marked_at in Hs. rewrite Hs. lia.
  - assert (Hnot : ~ In (toLowerCase w) s).
    { rewrite <- Hmem, Hs. discriminate. }
    split.
    + apply NoDup_app; [exact Hnd | repeat constructor; simpl; tauto |].
      intros x Hx [<-|[]]. contradiction.
    + split.
      * intros v. rewrite search_insert, Hmem, in_app_iff. simpl.
        intuition congruence.
      * rewrite countWords_marks in *. unfold insert. simpl root.
        rewrite marks_insert_loop. rewrite search_marked_at in Hs.
        rewrite Hs, length_app. simpl. lia.
Qed.

Lemma agrees_delete (w : jsstring) (t : Trie) (s : list jsstring) :
  pair_free w -> agrees t s ->
  agrees (snd (delete w t)) (ref_exec (Delete w) s).
Proof.
  intros Hpf (Hok & Hnd & Hmem & Hcount). simpl.
  apply pair_free_toLowerCase in Hpf.
  split; [apply (trie_ok_exec (Delete w)); exact Hok|].
  split; [apply NoDup_filter; exact Hnd|]. split.
  - intros v. rewrite search_delete, filter_In, Hmem, negb_true_iff, eqb_neq.
    rewrite <- Hpf. split; intros [H1 H2]; (split; [exact H1|]).
    + intros E. apply H2. rewrite E. reflexivity.
    + intros E. apply H2. symmetry. apply code_points_inj. exact E.
  - pose proof (length_filter_out (toLowerCase w) Hnd) as Hlen.
    pose proof (marks_canDelete (units (toLowerCase w)) Hok) as Hmarks.
    rewrite countWords_marks in *. rewrite delete_snd_root.
    assert (Hw : ref_mem (toLowerCase w) s
                 = marked_at (units (toLowerCase w)) (root t)).
    { rewrite <- Hpf, <- search_marked_at.
      apply eq_true_iff_eq. rewrite ref_mem_In. symmetry. apply Hmem. }
    rewrite Hw in Hlen. lia.
Qed.

Lemma agrees_run (ops : list Op) :
  forall t s, Forall pair_free (deleted_words ops) -> agrees t s ->
              agrees (run ops t) (ref_run ops s).
Proof.
  induction ops as [|op ops IH]; intros t s Hpf Ha; simpl; [exact Ha|].
  simpl in Hpf. apply Forall_app in Hpf. destruct Hpf as [Hop Hops].
  apply IH; [exact Hops|].
  destruct op; try exact Ha.
  - apply agrees_insert. exact Ha.
  - apply agrees_delete; [|exact Ha]. inversion Hop. assumption.
Qed.

(** When no deleted word contains a surrogate pair, [countWords] is the
    size of the reference set. *)
Lemma countWords_ref_pair_free (ops : list Op) :
  Forall pair_free (deleted_words ops) ->
  countWords (run ops newTrie) = length (ref_run ops []).
Proof.
  intros Hpf. apply (agrees_run ops Hpf agrees_new).
Qed.

End Reference.

(** ** Character prefixes and code-unit prefixes *)

Lemma char_prefix_is_prefix (p w : jsstring) :
  char_prefix p w -> exists s, w = p ++ s.
Proof.
  intros [rest H]. exists (List.concat rest).
  rewrite <- (concat_code_points w), H, concat_app, concat_code_points.
  reflexivity.
Qed.

(** In a word without surrogate pairs every code-unit prefix is a character
    prefix. *)
Lemma prefix_is_char_prefix (p s : jsstring) :
  pair_free (p ++ s) -> char_prefix p (p ++ s).
Proof.
  unfold pair_free, char_prefix, units. rewrite map_app. intros H.
  pose proof (code_points_prefix _ _ _ H) as Hp.
  fold (units p) in Hp. rewrite units_concat in Hp.
  exists (List.map (fun u => [u]) s). rewrite H, Hp. reflexivity.
Qed.

(** A lone high surrogate is a code-unit prefix of U+1F600 but not one of its
    characters: [startsWith] does not find it. *)
Lemma lone_surrogate_is_no_character :
  search grinning_face (insert grinning_face newTrie) = true /\
  startsWith [55357%N] (insert grinning_face newTrie) = false /\
  ~ char_prefix [55357%N] grinning_face.
Proof.
  split; [reflexivity|]. split; [reflexivity|].
  intros [rest H]. vm_compute in H. discriminate.
Qed.

(** ** The enumeration has no duplicates *)

Lemma code_points_nonempty (s : jsstring) :
  Forall (fun k => k <> []) (code_points s).
Proof.
  apply (code_points_ind (fun _ cs => Forall (fun k => k <> []) cs));
    intros; repeat constructor; try discriminate; assumption.
Qed.

Lemma canon_last_nonempty (path : list jsstring) (k : jsstring) :
  canon (path ++ [k]) -> k <> [].
Proof.
  intros [H _]. pose proof (code_points_nonempty (List.concat (path ++ [k]))) as Hne.
  rewrite H, Forall_forall in Hne. apply Hne. apply in_or_app. right. left.
  reflexivity.
Qed.

(** Canonical paths below a common path that spell the same word are the
    same path. *)
Lemma canon_spell_inj (path a b : list jsstring) :
  canon (path ++ a) -> canon (path ++ b) ->
  List.concat a = List.concat b -> a = b.
Proof.
  intros [Ha _] [Hb _] E. rewrite concat_app in Ha, Hb. rewrite E in Ha.
  rewrite Ha in Hb. apply app_inv_head in Hb. exact Hb.
Qed.

Lemma NoDup_flat_map (A B : Type) (f : A -> list B) (l : list A) :
  (forall x, In x l -> NoDup (f x)) ->
  (forall x y r, In x l -> In y l -> In r (f x) -> In r (f y) -> x = y) ->
  NoDup l -> NoDup (List.flat_map f l).
Proof.
  intros Hf Hdisj Hnd. induction Hnd as [|x l Hx Hl IH]; simpl; [constructor|].
  apply NoDup_app.
  - apply Hf. left. reflexivity.
  - apply IH.
    + intros y Hy. apply Hf. right. exact Hy.
    + intros y z r Hy Hz. apply Hdisj; right; assumption.
  - intros r Hr Hin. apply in_flat_map in Hin. destruct Hin as (y & Hy & Hry).
    assert (x = y) by (apply (Hdisj x y r); simpl; auto).
    subst. contradiction.
Qed.

Lemma dfs_NoDup (n : TrieNode) :
  forall path acc, node_ok path n -> canon path -> NoDup (dfs n acc).
Proof.
  induction n as [ch e IH] using TrieNode_ind. intros path acc Hok Hcanon.
  inversion Hok as [? ? ? Hnd Hcs Hsub]; subst.
  rewrite Forall_forall in IH. simpl.
  assert (Hbelow : forall k c r, In (k, c) ch -> In r (dfs c (acc ++ k)) ->
            exists ks, canon (path ++ k :: ks) /\ r = acc ++ List.concat (k :: ks)).
  { intros k c r Hkc Hr.
    destruct (@traverse_of_In_dfs c _ _ _ (Hsub _ _ Hkc) Hr) as (ks & x & Ht & _ & ->).
    exists ks. split.
    - destruct (node_ok_traverse _ (Hsub _ _ Hkc) (Hcs _ _ Hkc) Ht) as [Hc _].
      rewrite <- app_assoc in Hc. exact Hc.
    - simpl. rewrite app_assoc. reflexivity. }
  apply NoDup_app.
  - destruct e; repeat constructor. simpl. tauto.
  - apply NoDup_flat_map.
    + intros [k c] Hkc. simpl.
      apply (IH _ Hkc (path ++ [k])); [exact (Hsub _ _ Hkc) | exact (Hcs _ _ Hkc)].
    + intros [k1 c1] [k2 c2] r H1 H2 Hr1 Hr2. simpl in Hr1, Hr2.
      destruct (Hbelow _ _ _ H1 Hr1) as (ks1 & Hc1 & E1).
      destruct (Hbelow _ _ _ H2 Hr2) as (ks2 & Hc2 & E2).
      rewrite E1 in E2. apply app_inv_head in E2.
      pose proof (canon_spell_inj _ _ _ Hc1 Hc2 E2) as E.
      injection E as -> _.
      pose proof (In_Map_get _ _ _ Hnd H1) as G1.
      pose proof (In_Map_get _ _ _ Hnd H2) as G2.
      congruence.
    + apply (NoDup_map_inv fst). exact Hnd.
  - intros r Hr Hin. destruct e; [|contradiction].
    destruct Hr as [<-|[]].
    apply in_flat_map in Hin. destruct Hin as ([k c] & Hkc & Hr). simpl in Hr.
    destruct (Hbelow _ _ _ Hkc Hr) as (ks & _ & E).
    rewrite <- (app_nil_r acc) in E at 1. apply app_inv_head in E.
    simpl in E. symmetry in E. apply app_eq_nil in E.
    apply (@canon_last_nonempty path k (Hcs _ _ Hkc)). exact (proj1 E).
Qed.

Lemma autocomplete_NoDup (ops : list Op) (p : jsstring) :
  NoDup (autocomplete p (run ops newTrie)).
Proof.
  assert (Hok : trie_ok (run ops newTrie)) by (apply trie_ok_run, trie_ok_new).
  unfold autocomplete, traverse.
  destruct (traverse_loop (code_points (toLowerCase p)) (root (run ops newTrie)))
    as [start|] eqn:Hp; [|constructor].
  destruct (node_ok_traverse _ Hok canon_nil Hp) as [Hc Hstart].
  apply (@dfs_NoDup start _ _ Hstart Hc).
Qed.

(** ** The demonstration of the source file *)

Lemma demonstration :
  countWords dictionary = 10 /\
  search (lit "apple") dictionary = true /\
  search (lit "app") dictionary = false /\
  startsWith (lit "app") dictionary = true /\
  autocomplete (lit "ban") dictionary
  = [lit "banana"; lit "band"; lit "bandwidth"] /\
  autocomplete (lit "type") dictionary = [lit "type"; lit "typescript"] /\
  let after := snd (delete (lit "band") dictionary) in
  search (lit "band") after = false /\
  search (lit "bandwidth") after = true /\
  autocomplete (lit "ban") after = [lit "banana"; lit "bandwidth"] /\
  countWords after = 9.
Proof. vm_compute. repeat split. Qed.

(** The sibling example: deleting "band" leaves "bandwidth" intact. *)
Lemma band_bandwidth :
  let t := snd (delete (lit "band")
                       (insert (lit "bandwidth") (insert (lit "band") newTrie))) in
  search (lit "band") t = false /\
  search (lit "bandwidth") t = true /\
  autocomplete (lit "band") t = [lit "bandwidth"].
Proof. vm_compute. repeat split. Qed.

(** For a word without surrogate pairs, [insert] then [delete] removes it. *)
Lemma insert_delete_pair_free (t : Trie) (w : jsstring) :
  pair_free w -> search w (snd (delete w (insert w t))) = false.
Proof. apply delete_pair_free_removes. Qed.

(** ** The history of a sequence of calls *)

(** In a well-formed trie, [delete] removes a word exactly when the path of
    its code units ends on a marked node. *)
Lemma delete_removes_iff_marked (t : Trie) (w : jsstring) :
  trie_ok t ->
  (search w t && negb (search w (snd (delete w t))))%bool
  = marked_at (units (toLowerCase w)) (root t).
Proof.
  intros Hok.
  destruct (marked_at (units (toLowerCase w)) (root t)) eqn:Hm.
  - rewrite (marked_at_units _ Hok Hm). simpl. apply negb_true_iff.
    apply not_true_is_false. rewrite search_delete. intros [_ Hne]. apply Hne.
    unfold marked_at in Hm.
    destruct (traverse_loop (units (toLowerCase w)) (root t)) as [x|] eqn:Hx;
      [|discriminate].
    destruct (node_ok_traverse _ Hok canon_nil Hx) as [[Hc _] _]. simpl in Hc.
    rewrite units_concat in Hc. exact Hc.
  - unfold delete. rewrite (canDelete_absent _ _ Hm). simpl.
    destruct t as [r]. simpl. apply andb_negb_r.
Qed.

Lemma tally_countWords (ops : list Op) :
  forall t, trie_ok t ->
            countWords (run ops t) + snd (tally ops t)
            = countWords t + fst (tally ops t).
Proof.
  induction ops as [|op ops IH]; intros t Hok; simpl; [lia|].
  specialize (IH (exec op t) (trie_ok_exec op Hok)).
  destruct (tally ops (exec op t)) as [i d]. simpl in IH.
  rewrite !countWords_marks in *.
  destruct op; simpl in *; try lia.
  - rewrite marks_insert_loop in IH. rewrite search_marked_at.
    destruct (marked_at (code_points (toLowerCase word)) (root t)); lia.
  - rewrite (delete_removes_iff_marked word Hok).
    pose proof (marks_canDelete (units (toLowerCase word)) Hok) as Hm.
    rewrite delete_snd_root in IH.
    destruct (marked_at (units (toLowerCase word)) (root t)); lia.
Qed.

(** A character prefix of a lower-case word is in lower case. *)
Lemma char_prefix_lower_case (p w : jsstring) :
  toLowerCase w = w -> char_prefix p w -> toLowerCase p = p.
Proof.
  intros Hw [rest H]. rewrite <- (concat_code_points p).
  apply toLowerCase_concat. apply Forall_forall. intros k Hk.
  apply (code_points_fixed w k). rewrite Hw, H. apply in_or_app. left. exact Hk.
Qed.

(** * The properties of the specification *)

(** C1, which the code does not meet.  The claim: [delete(w)] returns true iff
    [w] was present and is now removed.  With "band" and "bandwidth" stored,
    "band" is present, [delete("band")] removes it, and yet the call returns
    false: [delete] hands back the prune flag of the root, which is true only
    when the whole trie has become empty. *)
Theorem delete_reports_false_for_removed_word :
  let t := insert (lit "bandwidth") (insert (lit "band") newTrie) in
  search (lit "band") t = true /\
  fst (delete (lit "band") t) = false /\
  search (lit "band") (snd (delete (lit "band") t)) = false.
Proof. vm_compute. repeat split. Qed.

(** C2, which the code does not meet.  The claim: after [insert(w)] and
    [delete(w)], [search(w)] is false.  For the one-character word U+1F600
    (two UTF-16 code units) [insert] stores the character as one edge, while
    [delete] looks for an edge labelled with the first code unit alone, finds
    none and leaves the word in place. *)
Theorem surrogate_pair_survives_delete :
  let t := insert grinning_face newTrie in
  delete grinning_face t = (false, t) /\
  search grinning_face (snd (delete grinning_face t)) = true.
Proof. vm_compute. repeat split. Qed.

(** C3.  Every operation preserves the garbage-free invariant: when no node
    below the root is both childless and unmarked before the call, none is
    after it.  The root itself stays: after [delete] the trie still has the
    node that [canDelete] worked on as its root, whatever flag the top-level
    call returned, and when that flag is true the root is an empty node. *)
Theorem garbage_free_preserved (op : Op) (t : Trie) :
  garbage_free t = true ->
  garbage_free (exec op t) = true /\
  (forall w, op = Delete w ->
             root (exec op t) = snd (canDelete (units (toLowerCase w)) (root t)) /\
             (fst (delete w t) = true -> exec op t = newTrie)).
Proof.
  intros H. split; [apply exec_garbage_free; exact H|].
  intros w ->. simpl. split; [apply delete_snd_root | apply delete_true_empties].
Qed.

Lemma garbage_free_preserved_witness :
  garbage_free dictionary = true /\
  garbage_free (exec (Delete (lit "band")) dictionary) = true.
Proof.
  split; [vm_compute; reflexivity|].
  apply (garbage_free_preserved (Delete (lit "band")) dictionary).
  vm_compute. reflexivity.
Defined.

(** A set that drops a word at every [delete] call is not what the trie
    stores: after [insert] and [delete] of the word U+1F600 the call has
    removed nothing, [countWords()] is 1 and such a set is empty. *)
Lemma countWords_after_surrogate_pair_delete :
  let ops := [Insert grinning_face; Delete grinning_face] in
  countWords (run ops newTrie) = 1 /\ length (ref_run ops []) = 0 /\
  tally ops newTrie = (1, 0).
Proof. vm_compute. repeat split. Qed.

(** C4.  After any sequence of calls on the empty trie, [countWords()] is
    the number of [insert] calls that stored a word not yet stored minus the
    number of [delete] calls that removed a stored word; and it is the size
    of the set of words currently stored: [autocomplete("")] lists exactly
    the lower-case words that [search] finds, each once, and has
    [countWords()] members. *)
Theorem countWords_inserted_minus_removed (ops : list Op) :
  countWords (run ops newTrie) + snd (tally ops newTrie)
  = fst (tally ops newTrie) /\
  NoDup (autocomplete [] (run ops newTrie)) /\
  (forall r, In r (autocomplete [] (run ops newTrie)) <->
             search r (run ops newTrie) = true /\ toLowerCase r = r) /\
  countWords (run ops newTrie) = length (autocomplete [] (run ops newTrie)).
Proof.
  assert (Hok : trie_ok (run ops newTrie)) by (apply trie_ok_run, trie_ok_new).
  split; [|split; [apply autocomplete_NoDup | split]].
  - pose proof (tally_countWords ops trie_ok_new) as H.
    change (countWords newTrie) with 0 in H. exact H.
  - intros r. split.
    + intros Hin. destruct (autocomplete_sound Hok _ _ Hin) as (H1 & H2 & _). auto.
    + intros [Hs Hl]. rewrite <- Hl. apply autocomplete_complete; [exact Hs|].
      exists (code_points (toLowerCase r)). reflexivity.
  - rewrite countWords_marks. unfold autocomplete, traverse. simpl.
    symmetry. apply length_dfs.
Qed.

(** C5.  In every state reached from the empty trie: [autocomplete(p)] is
    empty when the traversal of the normalized prefix fails; its members are
    exactly the stored lower-case words whose first characters are those of
    the normalized prefix; every returned string is in lower case and starts
    with the normalized prefix; and no word is returned twice. *)
Theorem autocomplete_spec (ops : list Op) (p : jsstring) :
  let t := run ops newTrie in
  (traverse p t = None -> autocomplete p t = []) /\
  (forall r, In r (autocomplete p t) <->
             search r t = true /\ toLowerCase r = r /\
             char_prefix (toLowerCase p) r) /\
  (forall r, In r (autocomplete p t) ->
             toLowerCase r = r /\ exists s, r = toLowerCase p ++ s) /\
  NoDup (autocomplete p t).
Proof.
  intros t.
  assert (Hok : trie_ok t) by (apply trie_ok_run, trie_ok_new).
  split; [apply traverse_fails_no_results|].
  split; [|split; [|apply autocomplete_NoDup]].
  - intros r. split.
    + intros Hin. destruct (autocomplete_sound Hok _ _ Hin) as (H1 & H2 & H3 & _).
      auto.
    + intros (Hs & Hl & Hp).
      assert (Hin : In (toLowerCase r) (autocomplete p t)).
      { apply autocomplete_complete; [exact Hs|]. rewrite Hl. exact Hp. }
      rewrite Hl in Hin. exact Hin.
  - intros r Hin. destruct (autocomplete_sound Hok _ _ Hin) as (_ & H2 & _ & H4).
    auto.
Qed.

(** C6.  For every word [w] and every trie, [search(w)] is true after
    [insert(w)] and stays true after a further [insert(w2)], for every
    [w2]. *)
Theorem insert_then_search (w w2 : jsstring) (t : Trie) :
  search w (insert w t) = true /\
  search w (insert w2 (insert w t)) = true.
Proof.
  assert (H : search w (insert w t) = true) by (apply search_insert; auto).
  split; [exact H|]. apply search_insert. auto.
Qed.

(** C7.  Inserting a word twice gives the very trie that inserting it once
    gives, hence the same [search], [startsWith], [autocomplete] and
    [countWords] results. *)
Theorem insert_idempotent (w : jsstring) (t : Trie) :
  insert w (insert w t) = insert w t /\
  (forall v, search v (insert w (insert w t)) = search v (insert w t)) /\
  (forall p, startsWith p (insert w (insert w t)) = startsWith p (insert w t)) /\
  (forall p, autocomplete p (insert w (insert w t)) = autocomplete p (insert w t)) /\
  countWords (insert w (insert w t)) = countWords (insert w t).
Proof.
  assert (H : insert w (insert w t) = insert w t).
  { unfold insert. simpl root. rewrite insert_loop_idem. reflexivity. }
  rewrite H. repeat split.
Qed.

(** C8.  Every operation gives for [w] what it gives for the lower-case form
    of [w]; after [insert("Apple")], [search("apple")] and [search("APPLE")]
    are true. *)
Theorem case_insensitive (w : jsstring) (t : Trie) :
  search (toLowerCase w) t = search w t /\
  startsWith (toLowerCase w) t = startsWith w t /\
  insert (toLowerCase w) t = insert w t /\
  delete (toLowerCase w) t = delete w t /\
  autocomplete (toLowerCase w) t = autocomplete w t /\
  search (lit "apple") (insert (lit "Apple") t) = true /\
  search (lit "APPLE") (insert (lit "Apple") t) = true.
Proof.
  unfold search, startsWith, insert, delete, autocomplete.
  rewrite traverse_toLowerCase, !toLowerCase_idem.
  repeat split; apply search_insert; right; reflexivity.
Qed.

(** C9 as the specification words it does not hold: the words are
    lower-cased as a whole, and lower-casing a prefix need not give a prefix
    of the lower-cased word.  The capital sigma in U+0391 U+03A3 U+0391 is
    not final and becomes U+03C3; in the prefix U+0391 U+03A3 it is final and
    becomes U+03C2.  So the word is found and its prefix is not. *)
Lemma final_sigma_breaks_prefix :
  alpha_sigma_alpha = alpha_sigma ++ [913%N] /\
  char_prefix alpha_sigma alpha_sigma_alpha /\
  search alpha_sigma_alpha (insert alpha_sigma_alpha newTrie) = true /\
  startsWith alpha_sigma (insert alpha_sigma_alpha newTrie) = false.
Proof.
  split; [reflexivity|]. split; [exists [[913%N]]; reflexivity|].
  split; vm_compute; reflexivity.
Qed.

(** C9, corrected.  Prefix monotonicity holds for prefixes taken after
    lower-casing: when [search(w)] is true, [startsWith(p)] is true for every
    [p] whose lower-case form has as characters the first characters of the
    lower-case form of [w], [w] itself included; in particular for every
    character prefix [p] of a word [w] that is in lower case. *)
Theorem prefix_monotone_normalized (w p : jsstring) (t : Trie) :
  search w t = true ->
  char_prefix (toLowerCase p) (toLowerCase w) \/
  (toLowerCase w = w /\ char_prefix p w) ->
  startsWith p t = true.
Proof.
  intros Hs Hp.
  assert (Hn : char_prefix (toLowerCase p) (toLowerCase w)).
  { destruct Hp as [Hp|[Hw Hp]]; [exact Hp|].
    rewrite Hw, (char_prefix_lower_case Hw Hp). exact Hp. }
  destruct Hn as [rest Hrest].
  rewrite search_marked_at in Hs. unfold marked_at in Hs.
  rewrite Hrest, traverse_loop_app in Hs.
  unfold startsWith, traverse.
  destruct (traverse_loop (code_points (toLowerCase p)) (root t));
    [reflexivity | discriminate].
Qed.

Lemma prefix_monotone_normalized_witness :
  search (lit "Apple") dictionary = true /\
  (char_prefix (toLowerCase (lit "APP")) (toLowerCase (lit "Apple")) \/
   (toLowerCase (lit "Apple") = lit "Apple" /\
    char_prefix (lit "APP") (lit "Apple"))) /\
  startsWith (lit "APP") dictionary = true.
Proof.
  assert (Hs : search (lit "Apple") dictionary = true) by (vm_compute; reflexivity).
  assert (Hp : char_prefix (toLowerCase (lit "APP")) (toLowerCase (lit "Apple")) \/
               (toLowerCase (lit "Apple") = lit "Apple" /\
                char_prefix (lit "APP") (lit "Apple"))).
  { left. exists (code_points (lit "le")). vm_compute. reflexivity. }
  split; [exact Hs|]. split; [exact Hp|].
  exact (@prefix_monotone_normalized (lit "Apple") (lit "APP") dictionary Hs Hp).
Defined.

(** C10.  [startsWith("")] is true in every trie, the empty one included;
    and in every state reached from the empty trie, [autocomplete("")] lists
    exactly the stored words (in their lower-case form), each once, as many
    as [countWords()] counts. *)
Theorem empty_prefix (ops : list Op) (t : Trie) :
  startsWith [] t = true /\
  startsWith [] newTrie = true /\
  (forall r, In r (autocomplete [] (run ops newTrie)) <->
             search r (run ops newTrie) = true /\ toLowerCase r = r) /\
  (forall w, search w (run ops newTrie) = true <->
             In (toLowerCase w) (autocomplete [] (run ops newTrie))) /\
  NoDup (autocomplete [] (run ops newTrie)) /\
  length (autocomplete [] (run ops newTrie)) = countWords (run ops newTrie).
Proof.
  assert (Hok : trie_ok (run ops newTrie)) by (apply trie_ok_run, trie_ok_new).
  split; [reflexivity|]. split; [reflexivity|].
  split; [|split; [|split; [apply autocomplete_NoDup|]]].
  - intros r. split.
    + intros Hin. destruct (autocomplete_sound Hok _ _ Hin) as (H1 & H2 & _). auto.
    + intros [Hs Hl]. rewrite <- Hl. apply autocomplete_complete; [exact Hs|].
      exists (code_points (toLowerCase r)). reflexivity.
  - intros w. split.
    + intros Hs. apply autocomplete_complete; [exact Hs|].
      exists (code_points (toLowerCase w)). reflexivity.
    + intros Hin. destruct (autocomplete_sound Hok _ _ Hin) as (H1 & _).
      unfold search in *. rewrite traverse_toLowerCase in H1. exact H1.
  - rewrite countWords_marks. unfold autocomplete, traverse. simpl.
    apply length_dfs.
Qed.

(** * Further properties of the code *)

(** ** Helper facts *)

Lemma canDelete_flag_of_empty (rest : list jsstring) (n : TrieNode) :
  marked_at rest n = true ->
  snd (canDelete rest n) = createNode -> fst (canDelete rest n) = true.
Proof.
  destruct rest as [|c rest]; destruct n as [ch e].
  - unfold marked_at. simpl. intros ->. simpl.
    intros [= ->]. reflexivity.
  - rewrite marked_at_cons. simpl.
    destruct (Map_get c ch) as [x|]; [|discriminate].
    intros _. destruct (canDelete rest x) as [b x']. destruct b; simpl.
    + intros [= -> ->]. reflexivity.
    + intros [= H _]. destruct ch as [|[k2 v2] ch]; simpl in H.
      * discriminate.
      * destruct (JS.eqb c k2); discriminate.
Qed.

Lemma canDelete_flag_marked (rest : list jsstring) (n : TrieNode) :
  fst (canDelete rest n) = true -> marked_at rest n = true.
Proof.
  intros H. destruct (marked_at rest n) eqn:E; [reflexivity|].
  rewrite (canDelete_absent _ _ E) in H. discriminate.
Qed.

Lemma search_newTrie (v : jsstring) : search v newTrie = false.
Proof. rewrite search_marked_at. apply marked_at_createNode. Qed.

Lemma Map_delete_set_absent (V : Type) (k : jsstring) (v : V) (m : Map V) :
  Map_get k m = None -> Map_delete k (Map_set k v m) = m.
Proof.
  induction m as [|[k2 v2] m IH]; simpl.
  - intros _. rewrite eqb_refl. reflexivity.
  - destruct (JS.eqb k k2) eqn:E; [discriminate|]. simpl.
    intros H. rewrite E. simpl. rewrite IH by assumption. reflexivity.
Qed.

Lemma marked_at_insert_loop_same (chars : list jsstring) (n : TrieNode) :
  marked_at chars (insert_loop chars n) = true.
Proof. apply marked_at_insert_loop. right. reflexivity. Qed.

(** On nodes: inserting a path that was not marked and deleting it again
    gives the node back, provided nothing below it was garbage. *)
Lemma canDelete_insert_loop (chars : list jsstring) :
  forall n, garbage_free_below n = true -> marked_at chars n = false ->
            snd (canDelete chars (insert_loop chars n)) = n.
Proof.
  induction chars as [|c chars IH]; intros [ch e] Hg Hm.
  - unfold marked_at in Hm. simpl in Hm. subst e. reflexivity.
  - rewrite marked_at_cons in Hm. simpl in Hm. simpl.
    rewrite Map_get_set_same.
    destruct (Map_get c ch) as [x|] eqn:G.
    + destruct (live_of_get c (mkNode ch e) Hg G) as [Hx1 Hx2].
      pose proof (IH x Hx2 Hm) as Hback.
      pose proof (canDelete_true_empty chars (insert_loop chars x)) as Hempty.
      destruct (canDelete chars (insert_loop chars x)) as [b x'].
      simpl in Hback, Hempty. subst x'.
      destruct b.
      * rewrite (Hempty eq_refl) in Hx1. discriminate.
      * simpl. rewrite Map_set_set, (Map_set_get_id _ _ G). reflexivity.
    + pose proof (IH createNode eq_refl (marked_at_createNode chars)) as Hback.
      pose proof (canDelete_flag_of_empty chars (insert_loop chars createNode)
                    (marked_at_insert_loop_same chars createNode)) as Hflag.
      destruct (canDelete chars (insert_loop chars createNode)) as [b x'].
      simpl in Hback, Hflag. rewrite (Hflag Hback). simpl.
      rewrite (@Map_delete_set_absent _ c _ ch G). reflexivity.
Qed.

(** ** What [delete] returns and what it changes *)

(** X1.  In every state reached from the empty trie, [delete(w)] returns
    true exactly when [w] was stored and the trie is empty after the call. *)
Theorem delete_true_iff_emptied (ops : list Op) (w : jsstring) :
  fst (delete w (run ops newTrie)) = true <->
  search w (run ops newTrie) = true /\ snd (delete w (run ops newTrie)) = newTrie.
Proof.
  assert (Hok : trie_ok (run ops newTrie)) by (apply trie_ok_run, trie_ok_new).
  split.
  - intros H. split; [|apply delete_true_empties; exact H].
    apply marked_at_units; [exact Hok|].
    apply canDelete_flag_marked. rewrite <- delete_fst. exact H.
  - intros [Hs He].
    destruct (marked_at (units (toLowerCase w)) (root (run ops newTrie))) eqn:Hm.
    + rewrite delete_fst. apply canDelete_flag_of_empty; [exact Hm|].
      rewrite <- delete_snd_root, He. reflexivity.
    + unfold delete in He. rewrite (canDelete_absent _ _ Hm) in He. simpl in He.
      assert (Ht : run ops newTrie = newTrie).
      { destruct (run ops newTrie) as [r]. simpl in He. exact He. }
      rewrite Ht, search_newTrie in Hs. discriminate.
Qed.

(** X2.  In every state reached from the empty trie, deleting a word that is
    not stored returns false and leaves the trie exactly as it was. *)
Theorem delete_of_absent_word (ops : list Op) (w : jsstring) :
  search w (run ops newTrie) = false ->
  delete w (run ops newTrie) = (false, run ops newTrie).
Proof.
  apply delete_absent_unchanged. apply trie_ok_run, trie_ok_new.
Qed.

Lemma delete_of_absent_word_witness :
  search (lit "app") (run (List.map Insert wordsToInsert) newTrie) = false /\
  delete (lit "app") (run (List.map Insert wordsToInsert) newTrie)
  = (false, run (List.map Insert wordsToInsert) newTrie).
Proof.
  assert (H : search (lit "app") (run (List.map Insert wordsToInsert) newTrie) = false)
    by (vm_compute; reflexivity).
  split; [exact H|].
  exact (@delete_of_absent_word (List.map Insert wordsToInsert) (lit "app") H).
Defined.

(** X3.  In any trie, [delete(w)] leaves the result of [search(v)] as it was
    for every word [v] whose lower-case form differs from that of [w]. *)
Theorem delete_leaves_other_words (t : Trie) (v w : jsstring) :
  toLowerCase v <> toLowerCase w ->
  search v (snd (delete w t)) = search v t.
Proof. apply delete_keeps_others. Qed.

Lemma delete_leaves_other_words_witness :
  toLowerCase (lit "bandwidth") <> toLowerCase (lit "band") /\
  search (lit "bandwidth") (snd (delete (lit "band") dictionary))
  = search (lit "bandwidth") dictionary.
Proof.
  assert (H : toLowerCase (lit "bandwidth") <> toLowerCase (lit "band"))
    by (vm_compute; discriminate).
  split; [exact H|].
  exact (@delete_leaves_other_words dictionary (lit "bandwidth") (lit "band") H).
Defined.

(** X4.  In any trie, after [delete(w)] of a word without surrogate pairs,
    [search(w)] is false. *)
Theorem delete_removes_word (t : Trie) (w : jsstring) :
  pair_free w -> search w (snd (delete w t)) = false.
Proof. apply delete_pair_free_removes. Qed.

Lemma delete_removes_word_witness :
  pair_free (lit "band") /\
  search (lit "band") (snd (delete (lit "band") dictionary)) = false.
Proof.
  assert (H : pair_free (lit "band")) by (vm_compute; reflexivity).
  split; [exact H|].
  exact (@delete_removes_word dictionary (lit "band") H).
Defined.

(** X5.  In every state reached from the empty trie, [delete(w)] of a word in
    which a surrogate pair occurs returns false and changes nothing, whether
    the word is stored or not. *)
Theorem delete_ignores_surrogate_pairs (ops : list Op) (w : jsstring) :
  ~ pair_free w -> delete w (run ops newTrie) = (false, run ops newTrie).
Proof.
  apply delete_with_pair_is_noop. apply trie_ok_run, trie_ok_new.
Qed.

Lemma delete_ignores_surrogate_pairs_witness :
  ~ pair_free grinning_face /\
  delete grinning_face (run [Insert grinning_face] newTrie)
  = (false, run [Insert grinning_face] newTrie).
Proof.
  assert (H : ~ pair_free grinning_face).
  { intros E. vm_compute in E. discriminate. }
  split; [exact H|].
  exact (@delete_ignores_surrogate_pairs [Insert grinning_face] grinning_face H).
Defined.

(** X6.  In any trie, [delete(w)] returns false whenever another word is
    stored, also when it removes [w]. *)
Theorem delete_false_while_others_stored (t : Trie) (v w : jsstring) :
  search v t = true -> toLowerCase v <> toLowerCase w ->
  fst (delete w t) = false.
Proof.
  intros Hs Hne. destruct (fst (delete w t)) eqn:E; [|reflexivity].
  pose proof (@delete_keeps_others t v w Hne) as Hk.
  rewrite (delete_true_empties _ _ E), search_newTrie, Hs in Hk. discriminate.
Qed.

Lemma delete_false_while_others_stored_witness :
  search (lit "bandwidth") dictionary = true /\
  toLowerCase (lit "bandwidth") <> toLowerCase (lit "band") /\
  fst (delete (lit "band") dictionary) = false.
Proof.
  assert (Hs : search (lit "bandwidth") dictionary = true) by (vm_compute; reflexivity).
  assert (H : toLowerCase (lit "bandwidth") <> toLowerCase (lit "band"))
    by (vm_compute; discriminate).
  split; [exact Hs|]. split; [exact H|].
  exact (@delete_false_while_others_stored dictionary (lit "bandwidth") (lit "band") Hs H).
Defined.

(** X7.  In any trie, a second [delete(w)] right after the first returns
    false and changes nothing. *)
Theorem delete_twice (t : Trie) (w : jsstring) :
  delete w (snd (delete w t)) = (false, snd (delete w t)).
Proof.
  unfold delete at 1. rewrite canDelete_absent.
  - destruct (snd (delete w t)). reflexivity.
  - rewrite delete_snd_root. apply not_true_is_false.
    rewrite marked_at_canDelete. intros [_ H]. apply H. reflexivity.
Qed.

(** X8.  Round trip: in a trie without garbage, inserting a word that is not
    stored and has no surrogate pair, then deleting it, gives back the very
    same trie (nodes, marks and the order of every map). *)
Theorem insert_delete_round_trip (t : Trie) (w : jsstring) :
  garbage_free t = true -> pair_free w -> search w t = false ->
  snd (delete w (insert w t)) = t.
Proof.
  intros Hg Hpf Hs. apply pair_free_toLowerCase in Hpf.
  rewrite search_marked_at in Hs.
  destruct t as [r]. unfold delete, insert. simpl root in *.
  rewrite <- Hpf.
  pose proof (canDelete_insert_loop (code_points (toLowerCase w)) r Hg Hs) as H.
  destruct (canDelete (code_points (toLowerCase w))
                      (insert_loop (code_points (toLowerCase w)) r)).
  simpl in *. congruence.
Qed.

Lemma insert_delete_round_trip_witness :
  garbage_free dictionary = true /\ pair_free (lit "bandit") /\
  search (lit "bandit") dictionary = false /\
  snd (delete (lit "bandit") (insert (lit "bandit") dictionary)) = dictionary.
Proof.
  assert (Hg : garbage_free dictionary = true) by (vm_compute; reflexivity).
  assert (Hp : pair_free (lit "bandit")) by (vm_compute; reflexivity).
  assert (Hs : search (lit "bandit") dictionary = false) by (vm_compute; reflexivity).
  split; [exact Hg|]. split; [exact Hp|]. split; [exact Hs|].
  exact (@insert_delete_round_trip dictionary (lit "bandit") Hg Hp Hs).
Defined.

(** ** More helper facts *)

(** The paths that can be followed after [insert_loop]: the old ones and the
    beginnings of the inserted path. *)
Lemma traverse_insert_loop (ps ws : list jsstring) (n : TrieNode) :
  traverse_loop ps (insert_loop ws n) <> None <->
  traverse_loop ps n <> None \/ exists rest, ws = ps ++ rest.
Proof.
  revert ws n. induction ps as [|c ps IH]; intros ws n.
  - simpl. split; [intros _; left; discriminate | intros _; discriminate].
  - destruct ws as [|d ws].
    + simpl. split; [auto|]. intros [H|[rest H]]; [exact H | discriminate].
    + simpl. destruct (JS.eqb d c) eqn:E.
      * apply eqb_eq in E. subst d. rewrite Map_get_set_same, IH.
        destruct (Map_get c (children n)) as [x|].
        -- split; (intros [H|[rest H]]; [left; exact H | right; exists rest; congruence]).
        -- split.
           ++ intros [H|[rest H]]; right.
              ** destruct ps; [exists ws; reflexivity | simpl in H; congruence].
              ** exists rest. congruence.
           ++ intros [H|[rest H]]; [congruence|]. right. exists rest. congruence.
      * apply eqb_neq in E. rewrite Map_get_set_other by assumption.
        split; [auto|]. intros [H|[rest H]]; [exact H | congruence].
Qed.

Lemma startsWith_traverse_loop (p : jsstring) (t : Trie) :
  startsWith p t = true <->
  traverse_loop (code_points (toLowerCase p)) (root t) <> None.
Proof.
  unfold startsWith, traverse.
  destruct (traverse_loop (code_points (toLowerCase p)) (root t));
    split; congruence.
Qed.

(** Below a root without garbage, every node that is reached is live. *)
Lemma traverse_live (ks : list jsstring) :
  forall k n x, garbage_free_below n = true ->
                traverse_loop (k :: ks) n = Some x ->
                is_garbage x = false /\ garbage_free_below x = true.
Proof.
  induction ks as [|k' ks IH]; intros k n x Hg Ht; simpl in Ht;
    destruct (Map_get k (children n)) as [y|] eqn:G; try discriminate;
    destruct (live_of_get _ _ Hg G) as [Hy1 Hy2].
  - injection Ht as <-. auto.
  - apply (IH k' y x Hy2). exact Ht.
Qed.

(** A live node leads to a marked node. *)
Lemma live_has_word (n : TrieNode) :
  garbage_free_below n = true -> is_garbage n = false ->
  exists ks x, traverse_loop ks n = Some x /\ isEndOfWord x = true.
Proof.
  induction n as [ch e IH] using TrieNode_ind. intros Hg Hn.
  destruct e.
  - exists [], (mkNode ch true). auto.
  - destruct ch as [|[k c] ch]; [discriminate|].
    inversion IH as [|? ? IHc _]; subst. simpl in IHc.
    simpl in Hg. apply andb_true_iff in Hg. destruct Hg as [Hc _].
    apply andb_true_iff in Hc. destruct Hc as [Hc1 Hc2].
    apply negb_true_iff in Hc1.
    destruct (IHc Hc2 Hc1) as (ks & x & Ht & Hx).
    exists (k :: ks), x. simpl. rewrite eqb_refl. auto.
Qed.

Lemma char_prefix_trans (a b c : jsstring) :
  char_prefix a b -> char_prefix b c -> char_prefix a c.
Proof.
  intros [r1 H1] [r2 H2]. exists (r1 ++ r2). rewrite H2, H1, app_assoc.
  reflexivity.
Qed.

Lemma list_sum_Map_set (f : TrieNode -> nat) k c (m : Map TrieNode) :
  list_sum (List.map (fun kv => f (snd kv)) (Map_set k c m)) +
  match Map_get k m with Some old => f old | None => 0 end =
  list_sum (List.map (fun kv => f (snd kv)) m) + f c.
Proof.
  induction m as [|[k2 v2] m IH]; simpl; [lia|].
  destruct (JS.eqb k k2); simpl; lia.
Qed.

Lemma list_sum_Map_delete (f : TrieNode -> nat) k (m : Map TrieNode) :
  list_sum (List.map (fun kv => f (snd kv)) (Map_delete k m)) <=
  list_sum (List.map (fun kv => f (snd kv)) m).
Proof.
  induction m as [|[k2 v2] m IH]; simpl; [lia|].
  destruct (JS.eqb k k2); simpl; lia.
Qed.

Lemma node_count_insert_loop (chars : list jsstring) :
  forall n, node_count n <= node_count (insert_loop chars n) /\
            node_count (insert_loop chars n) <= node_count n + length chars.
Proof.
  induction chars as [|c chars IH]; intros [ch e]; simpl; [lia|].
  pose proof (list_sum_Map_set node_count c
    (insert_loop chars match Map_get c ch with Some x => x | None => createNode end)
    ch) as H.
  destruct (Map_get c ch) as [x|].
  - specialize (IH x). lia.
  - specialize (IH createNode). simpl in IH. lia.
Qed.

Lemma node_count_canDelete (rest : list jsstring) :
  forall n, node_count (snd (canDelete rest n)) <= node_count n.
Proof.
  induction rest as [|c rest IH]; intros [ch e]; simpl.
  - destruct e; simpl; lia.
  - destruct (Map_get c ch) as [x|] eqn:G; [|simpl; lia].
    specialize (IH x). destruct (canDelete rest x) as [b x']. simpl in IH.
    destruct b; simpl.
    + pose proof (list_sum_Map_delete node_count c ch). lia.
    + pose proof (list_sum_Map_set node_count c x' ch) as H. rewrite G in H. lia.
Qed.

Lemma startsWith_insert (t : Trie) (p w : jsstring) :
  startsWith p (insert w t) = true <->
  startsWith p t = true \/ char_prefix (toLowerCase p) (toLowerCase w).
Proof.
  rewrite !startsWith_traverse_loop. unfold insert. simpl root.
  rewrite traverse_insert_loop. unfold char_prefix. tauto.
Qed.

Lemma countWords_insert (t : Trie) (w : jsstring) :
  countWords (insert w t) = countWords t + (if search w t then 0 else 1).
Proof.
  rewrite !countWords_marks, search_marked_at. unfold insert. simpl root.
  apply marks_insert_loop.
Qed.

(** ** What [insert] adds *)

(** X9.  In any trie, after [insert(w)] the words found by [search] are the
    ones found before and [w] itself (up to case): nothing else is added
    and nothing is lost. *)
Theorem search_after_insert (t : Trie) (v w : jsstring) :
  search v (insert w t) = true <->
  search v t = true \/ toLowerCase v = toLowerCase w.
Proof. apply search_insert. Qed.

(** X10.  In any trie, after [insert(w)] the prefixes accepted by
    [startsWith] are the ones accepted before and the character prefixes of
    [w] (up to case). *)
Theorem startsWith_after_insert (t : Trie) (p w : jsstring) :
  startsWith p (insert w t) = true <->
  startsWith p t = true \/ char_prefix (toLowerCase p) (toLowerCase w).
Proof. apply startsWith_insert. Qed.

(** X11.  In every state reached from the empty trie, [startsWith(p)] is
    true exactly when [p] is empty or some stored word begins with the
    characters of [p] (up to case): deleted words leave no prefix behind. *)
Theorem startsWith_exact (ops : list Op) (p : jsstring) :
  startsWith p (run ops newTrie) = true <->
  p = [] \/
  exists w, search w (run ops newTrie) = true /\
            char_prefix (toLowerCase p) (toLowerCase w).
Proof.
  assert (Hok : trie_ok (run ops newTrie)) by (apply trie_ok_run, trie_ok_new).
  pose proof (garbage_free_run ops) as Hg. unfold garbage_free in Hg.
  rewrite startsWith_traverse_loop. split.
  - intros H.
    destruct (traverse_loop (code_points (toLowerCase p)) (root (run ops newTrie)))
      as [x|] eqn:Hx; [clear H | congruence].
    destruct (code_points (toLowerCase p)) as [|k ks] eqn:Hcp.
    + left. pose proof (concat_code_points (toLowerCase p)) as Hc.
      rewrite Hcp in Hc. simpl in Hc. apply toLowerCase_nil. symmetry. exact Hc.
    + right. destruct (traverse_live _ _ _ Hg Hx) as [Hx1 Hx2].
      destruct (@live_has_word x Hx2 Hx1) as (ks2 & y & Hy & Hmark).
      assert (Hfull : traverse_loop ((k :: ks) ++ ks2) (root (run ops newTrie)) = Some y).
      { rewrite traverse_loop_app, Hx. exact Hy. }
      destruct (node_ok_traverse _ Hok canon_nil Hfull) as [Hcanon _].
      change ((k :: ks) ++ ks2) with (k :: ks ++ ks2) in Hfull.
      simpl app in Hcanon at 1.
      pose proof (canon_traverse_path Hcanon) as Hpath.
      exists (List.concat (k :: ks ++ ks2)). split.
      * rewrite search_marked_at, Hpath. unfold marked_at. rewrite Hfull. exact Hmark.
      * exists ks2. rewrite Hpath, Hcp. reflexivity.
  - intros [->|(w & Hs & [rest Hrest])]; [discriminate|].
    rewrite search_marked_at in Hs. unfold marked_at in Hs.
    rewrite Hrest, traverse_loop_app in Hs.
    destruct (traverse_loop (code_points (toLowerCase p)) (root (run ops newTrie)));
      [discriminate | simpl in Hs; discriminate Hs].
Qed.

(** ** Counting *)

(** X12.  In any trie, [insert(w)] raises [countWords()] by one when [w] was
    not stored and leaves it unchanged when it was. *)
Theorem countWords_after_insert (t : Trie) (w : jsstring) :
  countWords (insert w t) = countWords t + (if search w t then 0 else 1).
Proof. apply countWords_insert. Qed.

(** X13.  In every state reached from the empty trie, [delete(w)] of a word
    without surrogate pairs lowers [countWords()] by one when [w] was stored
    and leaves it unchanged when it was not. *)
Theorem countWords_after_delete (ops : list Op) (w : jsstring) :
  pair_free w ->
  countWords (snd (delete w (run ops newTrie)))
  + (if search w (run ops newTrie) then 1 else 0)
  = countWords (run ops newTrie).
Proof.
  intros Hpf. apply pair_free_toLowerCase in Hpf.
  assert (Hok : trie_ok (run ops newTrie)) by (apply trie_ok_run, trie_ok_new).
  rewrite !countWords_marks, search_marked_at, delete_snd_root, Hpf.
  apply (marks_canDelete (units (toLowerCase w)) Hok).
Qed.

Lemma countWords_after_delete_witness :
  pair_free (lit "band") /\
  countWords (snd (delete (lit "band") (run (List.map Insert wordsToInsert) newTrie)))
  + (if search (lit "band") (run (List.map Insert wordsToInsert) newTrie) then 1 else 0)
  = countWords (run (List.map Insert wordsToInsert) newTrie).
Proof.
  assert (H : pair_free (lit "band")) by (vm_compute; reflexivity).
  split; [exact H|].
  exact (@countWords_after_delete (List.map Insert wordsToInsert) (lit "band") H).
Defined.

(** X14.  Against a set of lower-case words updated by the same calls: when
    no word passed to [delete] contains a surrogate pair, [search] answers
    membership in the set and [countWords()] is its size. *)
Theorem trie_implements_set (ops : list Op) :
  Forall pair_free (deleted_words ops) ->
  (forall v, search v (run ops newTrie) = ref_mem (toLowerCase v) (ref_run ops [])) /\
  countWords (run ops newTrie) = length (ref_run ops []).
Proof.
  intros Hpf. destruct (agrees_run ops Hpf agrees_new) as (_ & _ & Hmem & Hcount).
  split; [|exact Hcount].
  intros v. apply eq_true_iff_eq. rewrite ref_mem_In. apply Hmem.
Qed.

Lemma trie_implements_set_witness :
  Forall pair_free (deleted_words (List.map Insert wordsToInsert ++ [Delete (lit "band")])) /\
  countWords (run (List.map Insert wordsToInsert ++ [Delete (lit "band")]) newTrie)
  = length (ref_run (List.map Insert wordsToInsert ++ [Delete (lit "band")]) []).
Proof.
  assert (H : Forall pair_free
                (deleted_words (List.map Insert wordsToInsert ++ [Delete (lit "band")]))).
  { repeat constructor. }
  split; [exact H|].
  exact (proj2 (@trie_implements_set
                  (List.map Insert wordsToInsert ++ [Delete (lit "band")]) H)).
Defined.

(** ** The shape of reachable tries *)

(** X15.  In every state reached from the empty trie, every path that can be
    followed from the root is the character sequence of the lower-case form
    of the string it spells: each edge is labelled with one character, in
    lower case. *)
Theorem paths_are_lower_case_characters (ops : list Op) (ks : list jsstring) :
  traverse_loop ks (root (run ops newTrie)) <> None ->
  code_points (toLowerCase (List.concat ks)) = ks.
Proof.
  assert (Hok : trie_ok (run ops newTrie)) by (apply trie_ok_run, trie_ok_new).
  intros H.
  destruct (traverse_loop ks (root (run ops newTrie))) as [x|] eqn:Hx;
    [|congruence].
  destruct (node_ok_traverse _ Hok canon_nil Hx) as [Hc _].
  apply canon_traverse_path. exact Hc.
Qed.

Lemma paths_are_lower_case_characters_witness :
  traverse_loop (code_points (lit "app"))
                (root (run [Insert (lit "Apple")] newTrie)) <> None /\
  code_points (toLowerCase (List.concat (code_points (lit "app"))))
  = code_points (lit "app").
Proof.
  assert (H : traverse_loop (code_points (lit "app"))
                            (root (run [Insert (lit "Apple")] newTrie)) <> None).
  { vm_compute. discriminate. }
  split; [exact H|].
  exact (@paths_are_lower_case_characters [Insert (lit "Apple")]
           (code_points (lit "app")) H).
Defined.

(** X16.  In any trie, [insert(w)] removes no node and creates at most one
    node per character of [w]; [delete(w)] creates no node. *)
Theorem node_count_bounds (t : Trie) (w : jsstring) :
  node_count (root t) <= node_count (root (insert w t)) /\
  node_count (root (insert w t))
  <= node_count (root t) + length (code_points (toLowerCase w)) /\
  node_count (root (snd (delete w t))) <= node_count (root t).
Proof.
  unfold insert. simpl root. rewrite delete_snd_root.
  pose proof (node_count_insert_loop (code_points (toLowerCase w)) (root t)).
  pose proof (node_count_canDelete (units (toLowerCase w)) (root t)).
  tauto.
Qed.

(** ** Enumeration after an update *)

(** X17.  In every state reached from the empty trie, [insert(w)] adds to
    the results of [autocomplete(p)] the lower-case form of [w], when it
    begins with the characters of the normalized prefix, and nothing else. *)
Theorem autocomplete_after_insert (ops : list Op) (p w r : jsstring) :
  In r (autocomplete p (insert w (run ops newTrie))) <->
  In r (autocomplete p (run ops newTrie)) \/
  (r = toLowerCase w /\ char_prefix (toLowerCase p) (toLowerCase w)).
Proof.
  assert (Hok : trie_ok (run ops newTrie)) by (apply trie_ok_run, trie_ok_new).
  assert (Hok' : trie_ok (insert w (run ops newTrie)))
    by (apply (trie_ok_exec (Insert w)), Hok).
  split.
  - intros Hin. destruct (autocomplete_sound Hok' _ _ Hin) as (Hs & Hl & Hp & _).
    apply search_insert in Hs. destruct Hs as [Hs|Hs].
    + left. rewrite <- Hl. apply autocomplete_complete; [exact Hs|].
      rewrite Hl. exact Hp.
    + right. rewrite Hl in Hs. subst r. auto.
  - intros [Hin|[-> Hp]].
    + destruct (autocomplete_sound Hok _ _ Hin) as (Hs & Hl & Hp & _).
      rewrite <- Hl. apply autocomplete_complete.
      * apply search_insert. left. exact Hs.
      * rewrite Hl. exact Hp.
    + apply autocomplete_complete; [|exact Hp].
      apply search_insert. right. reflexivity.
Qed.

(** X18.  In every state reached from the empty trie, [delete(w)] of a word
    without surrogate pairs takes the lower-case form of [w] out of the
    results of [autocomplete(p)] and leaves the other results. *)
Theorem autocomplete_after_delete (ops : list Op) (p w r : jsstring) :
  pair_free w ->
  (In r (autocomplete p (snd (delete w (run ops newTrie)))) <->
   In r (autocomplete p (run ops newTrie)) /\ r <> toLowerCase w).
Proof.
  intros Hpf. apply pair_free_toLowerCase in Hpf.
  assert (Hok : trie_ok (run ops newTrie)) by (apply trie_ok_run, trie_ok_new).
  assert (Hok' : trie_ok (snd (delete w (run ops newTrie))))
    by (apply (trie_ok_exec (Delete w)), Hok).
  split.
  - intros Hin. destruct (autocomplete_sound Hok' _ _ Hin) as (Hs & Hl & Hp & _).
    apply search_delete in Hs. destruct Hs as [Hs Hne]. split.
    + rewrite <- Hl. apply autocomplete_complete; [exact Hs|].
      rewrite Hl. exact Hp.
    + intros ->. apply Hne. rewrite toLowerCase_idem. exact Hpf.
  - intros [Hin Hne].
    destruct (autocomplete_sound Hok _ _ Hin) as (Hs & Hl & Hp & _).
    rewrite <- Hl. apply autocomplete_complete; [|rewrite Hl; exact Hp].
    apply search_delete. split; [exact Hs|].
    intros E. apply code_points_eq_units in E. destruct E as [E _].
    apply Hne. rewrite <- Hl. exact E.
Qed.

Lemma autocomplete_after_delete_witness :
  pair_free (lit "band") /\
  (In (lit "bandwidth")
      (autocomplete (lit "ban")
         (snd (delete (lit "band") (run (List.map Insert wordsToInsert) newTrie)))) <->
   In (lit "bandwidth")
      (autocomplete (lit "ban") (run (List.map Insert wordsToInsert) newTrie)) /\
   lit "bandwidth" <> toLowerCase (lit "band")).
Proof.
  assert (H : pair_free (lit "band")) by (vm_compute; reflexivity).
  split; [exact H|].
  exact (@autocomplete_after_delete (List.map Insert wordsToInsert)
           (lit "ban") (lit "band") (lit "bandwidth") H).
Defined.

(** X19.  In every state reached from the empty trie, a longer prefix gives
    fewer results: every result of [autocomplete(q)] is a result of
    [autocomplete(p)] when the characters of the lower-cased [p] are the
    first characters of the lower-cased [q]. *)
Theorem autocomplete_narrows (ops : list Op) (p q r : jsstring) :
  char_prefix (toLowerCase p) (toLowerCase q) ->
  In r (autocomplete q (run ops newTrie)) ->
  In r (autocomplete p (run ops newTrie)).
Proof.
  intros Hpq Hin.
  assert (Hok : trie_ok (run ops newTrie)) by (apply trie_ok_run, trie_ok_new).
  destruct (autocomplete_sound Hok _ _ Hin) as (Hs & Hl & Hp & _).
  rewrite <- Hl. apply autocomplete_complete; [exact Hs|].
  rewrite Hl. apply char_prefix_trans with (b := toLowerCase q); assumption.
Qed.

Lemma autocomplete_narrows_witness :
  char_prefix (toLowerCase (lit "Ban")) (toLowerCase (lit "BAND")) /\
  In (lit "bandwidth")
     (autocomplete (lit "BAND") (run (List.map Insert wordsToInsert) newTrie)) /\
  In (lit "bandwidth")
     (autocomplete (lit "Ban") (run (List.map Insert wordsToInsert) newTrie)).
Proof.
  assert (Hp : char_prefix (toLowerCase (lit "Ban")) (toLowerCase (lit "BAND"))).
  { exists (code_points (lit "d")). vm_compute. reflexivity. }
  assert (Hin : In (lit "bandwidth")
                   (autocomplete (lit "BAND")
                      (run (List.map Insert wordsToInsert) newTrie))).
  { vm_compute. auto. }
  split; [exact Hp|]. split; [exact Hin|].
  exact (@autocomplete_narrows (List.map Insert wordsToInsert)
           (lit "Ban") (lit "BAND") (lit "bandwidth") Hp Hin).
Defined.

(** ** The demonstration at the end of the source file *)

(** X20.  The driver: after the ten inserts, the calls print the values that
    the comments of the source give, including the results of
    [autocomplete] in insertion order and the word count 9 after
    [delete("band")]; and that [delete] call itself returns false. *)
Theorem driver_outputs :
  search (lit "apple") dictionary = true /\
  search (lit "app") dictionary = false /\
  startsWith (lit "app") dictionary = true /\
  autocomplete (lit "ban") dictionary
  = [lit "banana"; lit "band"; lit "bandwidth"] /\
  autocomplete (lit "type") dictionary = [lit "type"; lit "typescript"] /\
  fst (delete (lit "band") dictionary) = false /\
  search (lit "band") (snd (delete (lit "band") dictionary)) = false /\
  search (lit "bandwidth") (snd (delete (lit "band") dictionary)) = true /\
  autocomplete (lit "ban") (snd (delete (lit "band") dictionary))
  = [lit "banana"; lit "bandwidth"] /\
  countWords (snd (delete (lit "band") dictionary)) = 9.
Proof. vm_compute. repeat split. Qed.

(** ** Order of insertion, and the empty trie *)

Lemma search_same_lower (t : Trie) (a b : jsstring) :
  toLowerCase a = toLowerCase b -> search a t = search b t.
Proof. intros H. rewrite !search_marked_at, H. reflexivity. Qed.

Lemma marks_positive (ks : list jsstring) :
  forall n x, traverse_loop ks n = Some x -> isEndOfWord x = true -> 1 <= marks n.
Proof.
  induction ks as [|k ks IH]; intros [ch e] x; simpl.
  - intros [= <-]. simpl. intros ->. lia.
  - destruct (Map_get k ch) as [y|] eqn:G; [|discriminate].
    intros Ht Hx. specialize (IH y x Ht Hx).
    apply Map_get_In in G.
    apply (in_map (fun kv => marks (snd kv))) in G. simpl in G.
    apply in_split in G. destruct G as (l1 & l2 & ->).
    rewrite list_sum_app. simpl. lia.
Qed.

(** X21.  In any trie, the order of two inserts does not matter to [search],
    [startsWith] and [countWords] (it does to the order of the maps, hence to
    the order of the results of [autocomplete]). *)
Theorem inserts_commute (t : Trie) (a b v : jsstring) :
  search v (insert a (insert b t)) = search v (insert b (insert a t)) /\
  startsWith v (insert a (insert b t)) = startsWith v (insert b (insert a t)) /\
  countWords (insert a (insert b t)) = countWords (insert b (insert a t)).
Proof.
  split; [|split].
  - apply eq_true_iff_eq. rewrite !search_insert. tauto.
  - apply eq_true_iff_eq. rewrite !startsWith_insert. tauto.
  - rewrite !countWords_insert.
    assert (Ha : search a (insert b t) = true <->
                 search a t = true \/ toLowerCase a = toLowerCase b)
      by apply search_insert.
    assert (Hb : search b (insert a t) = true <->
                 search b t = true \/ toLowerCase b = toLowerCase a)
      by apply search_insert.
    destruct (JS.eqb (toLowerCase a) (toLowerCase b)) eqn:E.
    + apply eqb_eq in E. pose proof (@search_same_lower t a b E) as Hab.
      assert (Ha' : search a (insert b t) = true) by (apply Ha; right; exact E).
      assert (Hb' : search b (insert a t) = true)
        by (apply Hb; right; symmetry; exact E).
      rewrite Ha', Hb', Hab. reflexivity.
    + apply eqb_neq in E.
      assert (Ha' : search a (insert b t) = search a t).
      { apply eq_true_iff_eq. rewrite Ha. split; [|auto].
        intros [H|H]; [exact H | contradiction]. }
      assert (Hb' : search b (insert a t) = search b t).
      { apply eq_true_iff_eq. rewrite Hb. split; [|auto].
        intros [H|H]; [exact H | congruence]. }
      rewrite Ha', Hb'. destruct (search a t), (search b t); lia.
Qed.

(** X22.  In every state reached from the empty trie, [countWords()] is 0
    exactly when the trie is the empty trie again: once the last word is
    deleted, no node is left besides the root. *)
Theorem no_words_no_nodes (ops : list Op) :
  countWords (run ops newTrie) = 0 <-> run ops newTrie = newTrie.
Proof.
  split; [|intros ->; reflexivity].
  pose proof (garbage_free_run ops) as Hg. unfold garbage_free in Hg.
  rewrite countWords_marks.
  destruct (run ops newTrie) as [[ch e]]. simpl root in *. intros Hm.
  destruct e; [simpl in Hm; discriminate|].
  destruct ch as [|[k c] ch]; [reflexivity|]. exfalso.
  assert (Ht : traverse_loop [k] (mkNode ((k, c) :: ch) false) = Some c).
  { simpl. rewrite eqb_refl. reflexivity. }
  destruct (traverse_live _ _ _ Hg Ht) as [Hc1 Hc2].
  destruct (@live_has_word c Hc2 Hc1) as (ks & x & Hx & Hmark).
  assert (Hfull : traverse_loop (k :: ks) (mkNode ((k, c) :: ch) false) = Some x).
  { simpl. rewrite eqb_refl. exact Hx. }
  pose proof (@marks_positive (k :: ks) _ _ Hfull Hmark). lia.
Qed.
